(** * Word search: the grid index and the word locator of [finder.py]

    A shallow embedding of [Grid.__post_init__], [Grid.highlight],
    [Grid.find_word] and [find_in_group], with Python's integers as [Z],
    Python's [str] as a list of characters, Python's exceptions as the left
    summand of a sum type and the mutable overlay threaded as state. *)

From Stdlib Require Import ZArith Ascii String Lia.
From stdpp Require Import base tactics option list list_numbers.

Local Open Scope Z_scope.

(** ** Python values *)

(** A [str] is a sequence of characters; a single letter taken out of a
    string by iteration or indexing is a character. *)
Abbreviation str := (list ascii).

(** [len(x)]. *)
Definition len {A} (l : list A) : Z := Z.of_nat (length l).

(** The exceptions of the embedded code.  Indexing a sequence out of range
    raises [IndexError]; nothing in [finder.py] raises anything else.
    [MalformedGridError] is the name used by the specification; no code
    path constructs it. *)
Inductive exn : Type :=
  | IndexError
  | MalformedGridError.

Definition result (A : Type) : Type := exn + A.

Definition ret {A} (a : A) : result A := inr a.
Definition raise {A} (e : exn) : result A := inl e.
Definition bind {A B} (m : result A) (k : A → result B) : result B :=
  match m with
  | inl e => inl e
  | inr a => k a
  end.

Notation "x <- m ;; k" := (bind m (fun x => k))
  (at level 100, m at next level, right associativity).

(** [l[i]] on a Python sequence: a negative index counts from the end, and
    an index outside [-len(l) .. len(l)-1] raises [IndexError]. *)
Definition norm_index {A} (l : list A) (i : Z) : option nat :=
  if 0 <=? i then (if i <? len l then Some (Z.to_nat i) else None)
  else (if 0 <=? i + len l then Some (Z.to_nat (i + len l)) else None).

Definition getitem {A} (l : list A) (i : Z) : result A :=
  match norm_index l i with
  | Some n => match l !! n with
              | Some x => ret x
              | None => raise IndexError
              end
  | None => raise IndexError
  end.

(** [l[i] = x]. *)
Definition setitem {A} (l : list A) (i : Z) (x : A) : result (list A) :=
  match norm_index l i with
  | Some n => ret (<[n := x]> l)
  | None => raise IndexError
  end.

(** [l[i].append(x)] for a list of lists whose elements are distinct
    objects. *)
Definition append_at {A} (l : list (list A)) (i : Z) (x : A)
  : result (list (list A)) :=
  r <- getitem l i ;;
  setitem l i (r ++ [x]).

(** [enumerate(l)], and the same counting from [n]. *)
Fixpoint enumerate_from {A} (n : Z) (l : list A) : list (Z * A) :=
  match l with
  | [] => []
  | x :: l' => (n, x) :: enumerate_from (n + 1) l'
  end.

Definition enumerate {A} (l : list A) : list (Z * A) := enumerate_from 0 l.

(** [range(n)]. *)
Definition range (n : Z) : list Z := seqZ 0 n.

(** A [for] loop whose body may raise. *)
Fixpoint for_each {A S} (body : S → A → result S) (l : list A) (s : S)
  : result S :=
  match l with
  | [] => ret s
  | x :: l' => s' <- body s x ;; for_each body l' s'
  end.

(** ** Substring search: [word in row] and [row.find(word)] *)

Fixpoint startswith (row word : str) {struct word} : bool :=
  match word, row with
  | [], _ => true
  | _ :: _, [] => false
  | a :: word', b :: row' => Ascii.eqb a b && startswith row' word'
  end.

(** [word in row]. *)
Fixpoint str_in (word row : str) : bool :=
  startswith row word ||
  match row with
  | [] => false
  | _ :: row' => str_in word row'
  end.

(** [row.find(word)]: the lowest index where [word] starts, or [-1]. *)
Fixpoint find_from (word row : str) (i : Z) : Z :=
  if startswith row word then i
  else match row with
       | [] => -1
       | _ :: row' => find_from word row' (i + 1)
       end.

Definition find (row word : str) : Z := find_from word row 0.

(** [row[::-1]]. *)
Definition reversed {A} (l : list A) : list A := reverse l.

(** ** [find_in_group] *)

Definition find_in_group (word row : str) : option (Z * bool) :=
  if str_in word row then Some (find row word, true)
  else if str_in word (reversed row) then
    let last_index := len row - 1 in
    let last_col := find (reversed row) word in
    Some (last_index - last_col, false)
  else None.

(** ** Locations and directions *)

Record Location : Type := mkLocation { row : Z; column : Z }.

Inductive Direction : Type :=
  | UP
  | DOWN
  | LEFT
  | RIGHT
  | ANGLED_UP_RIGHT
  | ANGLED_DOWN_RIGHT
  | ANGLED_UP_LEFT
  | ANGLED_DOWN_LEFT.

(** ** The grid *)

(** An overlay cell holds a string: the letter itself, or the letter wrapped
    in a colour code and the reset code. *)
Record Grid : Type := mkGrid {
  text : list str;
  columns : list str;
  diag_up_right : list str;
  diag_down_right : list str;
  highlighted : list (list str)
}.

(** [colorama.Fore.RESET], the escape sequence ESC [ 3 9 m. *)
Definition Fore_RESET : str :=
  [ascii_of_nat 27; "["%char; "3"%char; "9"%char; "m"%char].

(** *** [Grid.__post_init__] *)

(** The four lists the constructor fills while it walks the cells. *)
Record builder : Type := mkBuilder {
  b_cols : list (list ascii);
  b_diag_up : list (list ascii);
  b_diag_dn : list (list ascii);
  b_highlighted : list (list str)
}.

(** The body of the inner loop, for the cell [(row, col)] holding
    [letter]. *)
Definition cell_step (row_count row : Z) (b : builder) (cl : Z * ascii)
  : result builder :=
  let '(col, letter) := cl in
  cols <- append_at (b_cols b) col letter ;;
  diag_up <- append_at (b_diag_up b) (row + col) letter ;;
  diag_dn <- append_at (b_diag_dn b) (col - row + row_count - 1) letter ;;
  hl <- append_at (b_highlighted b) row [letter] ;;
  ret (mkBuilder cols diag_up diag_dn hl).

(** The body of the outer loop, for the line of index [row]. *)
Definition row_step (row_count : Z) (b : builder) (rl : Z * str)
  : result builder :=
  let '(row, line) := rl in
  let b1 := mkBuilder (b_cols b) (b_diag_up b) (b_diag_dn b)
                      (b_highlighted b ++ [[]]) in
  for_each (cell_step row_count row) (enumerate line) b1.

(** Construction from the rows [text].  [text[0]] raises on an empty
    tuple. *)
Definition post_init (text : list str) : result Grid :=
  let row_count := len text in
  line0 <- getitem text 0 ;;
  let col_count := len line0 in
  let cols := replicate (Z.to_nat col_count) [] in
  let diag_up := replicate (Z.to_nat (row_count + col_count - 1)) [] in
  let diag_dn := replicate (Z.to_nat (row_count + col_count - 1)) [] in
  b <- for_each (row_step row_count) (enumerate text)
        (mkBuilder cols diag_up diag_dn []) ;;
  ret (mkGrid text
              (b_cols b)
              (map reversed (b_diag_up b))
              (b_diag_dn b)
              (b_highlighted b)).

(** *** [Grid.highlight] *)

Definition offsets (direction : Direction) : Z * Z :=
  match direction with
  | RIGHT => (0, 1)
  | LEFT => (0, -1)
  | UP => (-1, 0)
  | DOWN => (1, 0)
  | ANGLED_UP_RIGHT => (-1, 1)
  | ANGLED_DOWN_LEFT => (1, -1)
  | ANGLED_UP_LEFT => (-1, -1)
  | ANGLED_DOWN_RIGHT => (1, 1)
  end.

(** The body of the loop of [highlight]: [self.text] is read, the overlay
    [hl] is written. *)
Definition highlight_step (txt : list str) (start : Location)
    (row_off col_off : Z) (color : str)
    (hl : list (list str)) (ind : Z) : result (list (list str)) :=
  let row := row start + ind * row_off in
  let col := column start + ind * col_off in
  line <- getitem txt row ;;
  letter <- getitem line col ;;
  hrow <- getitem hl row ;;
  hrow' <- setitem hrow col (color ++ [letter] ++ Fore_RESET) ;;
  setitem hl row hrow'.

Definition with_highlighted (g : Grid) (hl : list (list str)) : Grid :=
  mkGrid (text g) (columns g) (diag_up_right g) (diag_down_right g) hl.

Definition highlight (g : Grid) (start : Location) (direction : Direction)
    (length : Z) (color : str) : result Grid :=
  let '(row_off, col_off) := offsets direction in
  hl <- for_each (highlight_step (text g) start row_off col_off color)
         (range length) (highlighted g) ;;
  ret (with_highlighted g hl).

(** *** [Grid.find_word] *)

(** A [for] loop over [enumerate(views)] whose body either returns from the
    enclosing function (with a value or an exception) or goes on to the next
    view.  [None] means the loop ran to its end. *)
Fixpoint scan {R} (body : Z → str → option (result R)) (l : list (Z * str))
  : option (result R) :=
  match l with
  | [] => None
  | (i, t) :: l' =>
      match body i t with
      | Some r => Some r
      | None => scan body l'
      end
  end.

Definition found : Type := option (Location * Direction) * Grid.

(** What every loop body does once it has the start and the direction. *)
Definition report (g : Grid) (word color : str) (start : Location)
    (direction : Direction) : result found :=
  g' <- highlight g start direction (len word) color ;;
  ret (Some (start, direction), g').

Definition row_body (g : Grid) (word color : str) (row : Z) (txt : str)
  : option (result found) :=
  match find_in_group word txt with
  | Some (col, to_right) =>
      let direction := if to_right then RIGHT else LEFT in
      let start := mkLocation row col in
      Some (report g word color start direction)
  | None => None
  end.

Definition col_body (g : Grid) (word color : str) (col : Z) (txt : str)
  : option (result found) :=
  match find_in_group word txt with
  | Some (row, down) =>
      let direction := if down then DOWN else UP in
      let start := mkLocation row col in
      Some (report g word color start direction)
  | None => None
  end.

(** The coordinate back-transforms of the two diagonal loops. *)
Definition up_right_cell (num_rows diag index : Z) : Location :=
  if diag <? num_rows
  then mkLocation (diag - index) index
  else mkLocation (num_rows - index - 1) ((diag - num_rows) + index + 1).

Definition down_right_cell (num_rows diag index : Z) : Location :=
  if diag <? num_rows
  then mkLocation (num_rows - diag + index - 1) index
  else mkLocation index (diag - num_rows + index + 1).

Definition up_right_body (g : Grid) (word color : str) (num_rows : Z)
    (diag : Z) (txt : str) : option (result found) :=
  match find_in_group word txt with
  | Some (index, forward) =>
      let direction :=
        if forward then ANGLED_UP_RIGHT else ANGLED_DOWN_LEFT in
      let start := up_right_cell num_rows diag index in
      Some (report g word color start direction)
  | None => None
  end.

Definition down_right_body (g : Grid) (word color : str) (num_rows : Z)
    (diag : Z) (txt : str) : option (result found) :=
  match find_in_group word txt with
  | Some (index, forward) =>
      let direction :=
        if forward then ANGLED_DOWN_RIGHT else ANGLED_UP_LEFT in
      let start := down_right_cell num_rows diag index in
      Some (report g word color start direction)
  | None => None
  end.

Definition find_word (g : Grid) (word color : str) : result found :=
  match scan (row_body g word color) (enumerate (text g)) with
  | Some r => r
  | None =>
  match scan (col_body g word color) (enumerate (columns g)) with
  | Some r => r
  | None =>
  let num_rows := len (text g) in
  match scan (up_right_body g word color num_rows)
             (enumerate (diag_up_right g)) with
  | Some r => r
  | None =>
  match scan (down_right_body g word color num_rows)
             (enumerate (diag_down_right g)) with
  | Some r => r
  | None => ret (None, g)
  end end end end.

(** ** Concrete inputs *)

Definition s (x : string) : str := list_ascii_of_string x.

(** The grid of rows ABC, DEF, GHI. *)
Definition abc : list str := [s "ABC"; s "DEF"; s "GHI"].

Definition abc_grid : Grid :=
  Eval vm_compute in
    match post_init abc with
    | inr g => g
    | inl _ => mkGrid [] [] [] [] []
    end.

(** A grid in which the word AB occurs in several views and in both
    orientations: rows XXXXX, XABAB, XXBBX. *)
Definition tie_rows : list str := [s "XXXXX"; s "XABAB"; s "XXBBX"].

Definition tie_grid : Grid :=
  Eval vm_compute in
    match post_init tie_rows with
    | inr g => g
    | inl _ => mkGrid [] [] [] [] []
    end.

(** The grid of one row without letters. *)
Definition blank_grid : Grid :=
  Eval vm_compute in
    match post_init [[]] with
    | inr g => g
    | inl _ => mkGrid [] [] [] [] []
    end.

(** ** Reading a line and a grid by position *)

(** The element at position [i], with no wrap-around: positions are the
    non-negative offsets from the start. *)
Definition at_index {A} (l : list A) (i : Z) : option A :=
  if i <? 0 then None else l !! Z.to_nat i.

(** The content of a grid, or of the overlay, at [(r, c)]. *)
Definition cell {A} (txt : list (list A)) (r c : Z) : option A :=
  match at_index txt r with
  | Some line => at_index line c
  | None => None
  end.

(** [word] is spelled in [line] from position [start], one letter every
    [step] positions. *)
Definition reads (line : str) (start step : Z) (word : str) : Prop :=
  ∀ j : nat, (j < length word)%nat →
    at_index line (start + Z.of_nat j * step) = word !! j.

(** [word] occurs in [line] as a contiguous substring. *)
Definition occurs (word line : str) : Prop :=
  ∃ pre post, line = pre ++ word ++ post.

(** ** What the constructor's loops compute, as functions on lists *)

(** [l[n].append(x1); ...; l[n].append(xk)] when [n] is in range. *)
Definition extend {A} (l : list (list A)) (n : nat) (xs : list A)
  : list (list A) :=
  match l !! n with
  | Some r => <[n := r ++ xs]> l
  | None => l
  end.

(** One line spread over consecutive buckets, from bucket [start] on. *)
Fixpoint spread {A} (l : list (list A)) (start : Z) (line : list A)
  : list (list A) :=
  match line with
  | [] => l
  | x :: line' => spread (extend l (Z.to_nat start) [x]) (start + 1) line'
  end.

(** All lines spread, the line of index [r] from bucket [shift r] on. *)
Fixpoint spread_rows {A} (shift : Z → Z) (l : list (list A)) (r0 : Z)
    (rows : list (list A)) : list (list A) :=
  match rows with
  | [] => l
  | line :: rows' =>
      spread_rows shift (spread l (shift r0) line) (r0 + 1) rows'
  end.

Definition letters (line : str) : list str := map (λ x, [x]) line.

(** The sizes of the bucket lists while the outer loop is at line [r0] of a
    grid of [rc] lines whose first line has [cc] letters. *)
Definition sized (rc cc r0 : Z) (b : builder) : Prop :=
  len (b_cols b) = cc ∧ len (b_diag_up b) = rc + cc - 1 ∧
  len (b_diag_dn b) = rc + cc - 1 ∧ len (b_highlighted b) = r0.

(** ** Shapes of the input *)

(** The length of the first row ([0] when there is none). *)
Definition width (txt : list str) : Z := len (default [] (head txt)).

(** A non-empty sequence of rows of equal length. *)
Definition well_formed (txt : list str) : Prop :=
  txt ≠ [] ∧ Forall (λ line, len line = width txt) txt.

(** Rows of unequal length: some row differs in length from the first. *)
Definition ragged (txt : list str) : Prop :=
  Exists (λ line, len line ≠ width txt) txt.

(** The cells of the grid in reading order, each with its row, its column
    and its letter. *)
Definition grid_cells (txt : list str) : list (Z * Z * ascii) :=
  flat_map (λ rl, map (λ cx, (rl.1, cx.1, cx.2)) (enumerate rl.2))
           (enumerate txt).

(** The cells whose coordinates satisfy [line_of row col = d], in reading
    order, and their letters. *)
Definition on_line (line_of : Z → Z → Z) (d : Z) (txt : list str)
  : list (Z * Z * ascii) :=
  List.filter (λ p, line_of p.1.1 p.1.2 =? d) (grid_cells txt).

Definition letters_of (cells : list (Z * Z * ascii)) : str :=
  map (λ p, p.2) cells.

(** The four families of views. *)
Inductive Family : Type := Row | Column | UpRight | DownRight.

(** The line equations of the four families: the index of the view that
    holds the cell [(r, c)] of a grid of [rc] rows. *)
Definition row_line (r c : Z) : Z := r.
Definition col_line (r c : Z) : Z := c.
Definition up_right_line (r c : Z) : Z := r + c.
Definition down_right_line (rc r c : Z) : Z := c - r + rc - 1.

(** The index of the view of a family that holds the cell [(r, c)], and the
    offset of the cell in that view. *)
Definition line_of (rc : Z) (fam : Family) (r c : Z) : Z :=
  match fam with
  | Row => row_line r c
  | Column => col_line r c
  | UpRight => up_right_line r c
  | DownRight => down_right_line rc r c
  end.

Definition offset_of (rc : Z) (fam : Family) (r c : Z) : Z :=
  match fam with
  | Row => c
  | Column => r
  | UpRight => if up_right_line r c <? rc then c else rc - 1 - r
  | DownRight => if down_right_line rc r c <? rc then c else r
  end.

Definition in_bounds (rc cc : Z) (loc : Location) : Prop :=
  0 ≤ row loc < rc ∧ 0 ≤ column loc < cc.

(** [text[row][col]] as Python evaluates it. *)
Definition grid_at (txt : list str) (r c : Z) : result ascii :=
  line <- getitem txt r ;;
  getitem line c.

(** The rows that meet a diagonal of a grid of [rc] rows and [cc] columns:
    those of index [lo] to [hi - 1]. *)
Definition up_lo (rc cc d : Z) : Z := Z.max 0 (d - cc + 1).
Definition up_hi (rc cc d : Z) : Z := Z.min rc (d + 1).
Definition dn_lo (rc cc d : Z) : Z := Z.max 0 (rc - 1 - d).
Definition dn_hi (rc cc d : Z) : Z := Z.min rc (rc - 1 - d + cc).

(** ** Grids in use *)

(** An overlay of [rc] rows of [cc] cells. *)
Definition overlay_shape (rc cc : Z) (hl : list (list str)) : Prop :=
  len hl = rc ∧ Forall (λ hrow, len hrow = cc) hl.

(** A grid as the program holds it: built by the constructor from
    well-formed rows, with an overlay of the shape of the grid (which
    [highlight] may have written to). *)
Definition valid_grid (g : Grid) : Prop :=
  well_formed (text g) ∧
  (∃ g0, post_init (text g) = inr g0 ∧
         columns g = columns g0 ∧
         diag_up_right g = diag_up_right g0 ∧
         diag_down_right g = diag_down_right g0) ∧
  overlay_shape (len (text g)) (width (text g)) (highlighted g).

(** The cell reached from [start] after [ind] steps in [direction]. *)
Definition step_cell (start : Location) (direction : Direction) (ind : Z)
  : Location :=
  mkLocation (row start + ind * (offsets direction).1)
             (column start + ind * (offsets direction).2).

(** Whether [(r, c)] is one of the [length] cells stepped through from
    [start]. *)
Definition stepped (start : Location) (direction : Direction) (length : Z)
    (r c : Z) : bool :=
  existsb (λ ind, (row (step_cell start direction ind) =? r) &&
                  (column (step_cell start direction ind) =? c))
          (range length).

(** The overlay text of a matched letter. *)
Definition decorated (color : str) (letter : ascii) : str :=
  color ++ [letter] ++ Fore_RESET.

(** ** The scan order, following the specification

    The direction table, and the views of a grid listed in the order in
    which the locator is specified to try them. *)
Definition forward_direction (fam : Family) : Direction :=
  match fam with
  | Row => RIGHT
  | Column => DOWN
  | UpRight => ANGLED_UP_RIGHT
  | DownRight => ANGLED_DOWN_RIGHT
  end.

Definition backward_direction (fam : Family) : Direction :=
  match fam with
  | Row => LEFT
  | Column => UP
  | UpRight => ANGLED_DOWN_LEFT
  | DownRight => ANGLED_UP_LEFT
  end.

(** The cell of the letter at offset [i] of the view [d] of a family. *)
Definition locate (rows : Z) (fam : Family) (d i : Z) : Location :=
  match fam with
  | Row => mkLocation d i
  | Column => mkLocation i d
  | UpRight => up_right_cell rows d i
  | DownRight => down_right_cell rows d i
  end.

Definition views (g : Grid) (fam : Family) : list str :=
  match fam with
  | Row => text g
  | Column => columns g
  | UpRight => diag_up_right g
  | DownRight => diag_down_right g
  end.

Definition tagged (fam : Family) (l : list (Z * str))
  : list (Family * Z * str) :=
  map (λ dv, (fam, dv.1, dv.2)) l.

(** Row views by ascending index, then column views, then up-right
    diagonals, then down-right diagonals. *)
Definition scan_order (g : Grid) : list (Family * Z * str) :=
  tagged Row (enumerate (text g)) ++
  tagged Column (enumerate (columns g)) ++
  tagged UpRight (enumerate (diag_up_right g)) ++
  tagged DownRight (enumerate (diag_down_right g)).

(** The match in one view, if any. *)
Definition hit (rows : Z) (word : str) (c : Family * Z * str)
  : option (Location * Direction) :=
  let '(fam, d, view) := c in
  match find_in_group word view with
  | Some (index, forward) =>
      Some (locate rows fam d index,
            if forward then forward_direction fam
            else backward_direction fam)
  | None => None
  end.

(** The match in the first view of a list that has one. *)
Fixpoint first_hit (rows : Z) (word : str) (l : list (Family * Z * str))
  : option (Location * Direction) :=
  match l with
  | [] => None
  | c :: l' =>
      match hit rows word c with
      | Some m => Some m
      | None => first_hit rows word l'
      end
  end.

(** ** Text in and out

    [Grid.from_str], [Grid.__str__], [Grid.colored], [get_words] and
    [read_file], with the text of the file as the input of [read_file], and
    the loop of [main] over the words, with the colours drawn by
    [random.choice] as an input. *)

Definition code (c : ascii) : nat := nat_of_ascii c.

(** The characters at which [str.splitlines] ends a line. *)
Definition is_linebreak (c : ascii) : bool :=
  ((10 <=? code c)%nat && (code c <=? 13)%nat) ||
  ((28 <=? code c)%nat && (code c <=? 30)%nat) ||
  (code c =? 133)%nat.

(** The characters [str.strip] removes and [\s] matches. *)
Definition isspace (c : ascii) : bool :=
  ((9 <=? code c)%nat && (code c <=? 13)%nat) ||
  ((28 <=? code c)%nat && (code c <=? 32)%nat) ||
  (code c =? 133)%nat || (code c =? 160)%nat.

Definition space : ascii := " "%char.
Definition newline : ascii := ascii_of_nat 10.
Definition carriage_return : ascii := ascii_of_nat 13.

(** [t.replace(old, new)] for a one-character [old]. *)
Definition replace (old : ascii) (new : str) (t : str) : str :=
  flat_map (λ c, if Ascii.eqb c old then new else [c]) t.

(** [t.splitlines()]: [cur] is the line read so far.  A carriage return
    followed by a newline ends one line, and a text that ends with a line
    break has no empty last line. *)
Fixpoint splitlines_from (cur : str) (t : str) : list str :=
  match t with
  | [] => match cur with [] => [] | _ => [cur] end
  | c :: t' =>
      if is_linebreak c then
        match t' with
        | c' :: t'' =>
            if Ascii.eqb c carriage_return && Ascii.eqb c' newline
            then cur :: splitlines_from [] t''
            else cur :: splitlines_from [] t'
        | [] => [cur]
        end
      else splitlines_from (cur ++ [c]) t'
  end.

Definition splitlines (t : str) : list str := splitlines_from [] t.

(** [sep.join(parts)]. *)
Fixpoint join (sep : str) (parts : list str) : str :=
  match parts with
  | [] => []
  | p :: rest =>
      match rest with
      | [] => p
      | _ => p ++ sep ++ join sep rest
      end
  end.

(** [Grid.from_str]. *)
Definition from_str (t : str) : result Grid :=
  post_init (splitlines (replace space [] t)).

(** [Grid.__str__]: joining a row puts a space between its letters. *)
Definition __str__ (g : Grid) : str :=
  join [newline] (map (λ row, join [space] (letters row)) (text g)).

(** [Grid.colored]. *)
Definition colored (g : Grid) : str :=
  join [newline] (map (λ row, join [space] row) (highlighted g)).

(** [t.lstrip()], [t.rstrip()] and [t.strip()]. *)
Fixpoint lstrip (t : str) : str :=
  match t with
  | [] => []
  | c :: t' => if isspace c then lstrip t' else t
  end.

Definition rstrip (t : str) : str := reversed (lstrip (reversed t)).

Definition strip (t : str) : str := rstrip (lstrip t).

(** [re.split(r"\s+", t)]: [cur] is the piece read so far, [in_run] says
    that the previous character was matched by the pattern. *)
Fixpoint re_split_spaces (cur : str) (in_run : bool) (t : str) : list str :=
  match t with
  | [] => [cur]
  | c :: t' =>
      if isspace c then
        if in_run then re_split_spaces [] true t'
        else cur :: re_split_spaces [] true t'
      else re_split_spaces (cur ++ [c]) false t'
  end.

(** [get_words]; the generator it returns is read as the list of its
    items. *)
Definition get_words (t : str) : list str :=
  re_split_spaces [] false (strip t).

(** [t.split("\n\n")]: [cur] is the piece read so far. *)
Fixpoint split_blank (cur : str) (t : str) : list str :=
  match t with
  | [] => [cur]
  | c :: t' =>
      match t' with
      | c' :: t'' =>
          if Ascii.eqb c newline && Ascii.eqb c' newline
          then cur :: split_blank [] t''
          else split_blank (cur ++ [c]) t'
      | [] => [cur ++ [c]]
      end
  end.

(** What [read_file] raises: [ValueError] when the text does not unpack
    into two pieces, or what the constructor raises. *)
Inductive read_exn : Type :=
  | ValueError
  | Raised (e : exn).

(** [read_file], from the text read from the file. *)
Definition read_file (file_text : str) : read_exn + (Grid * list str) :=
  match split_blank [] file_text with
  | [grid; words] =>
      match from_str grid with
      | inl e => inl (Raised e)
      | inr g => inr (g, get_words words)
      end
  | _ => inl ValueError
  end.

(** The loop of [main] over the words: each word is looked up with the
    colour drawn for it, on the grid as the previous lookups left it. *)
Fixpoint find_words (g : Grid) (picks : list (str * str))
  : result (list (option (Location * Direction)) * Grid) :=
  match picks with
  | [] => ret ([], g)
  | (word, color) :: picks' =>
      r <- find_word g word color ;;
      rs <- find_words r.2 picks' ;;
      ret (r.1 :: rs.1, rs.2)
  end.

(** The family and the orientation in which a direction is searched. *)
Definition family_of (direction : Direction) : Family :=
  match direction with
  | RIGHT | LEFT => Row
  | DOWN | UP => Column
  | ANGLED_UP_RIGHT | ANGLED_DOWN_LEFT => UpRight
  | ANGLED_DOWN_RIGHT | ANGLED_UP_LEFT => DownRight
  end.

(** [word] is spelled in the grid from [start], one letter per step in
    [direction]. *)
Definition spelled (txt : list str) (word : str) (start : Location)
    (direction : Direction) : Prop :=
  ∀ j : nat, (j < length word)%nat →
    cell txt (row (step_cell start direction (Z.of_nat j)))
             (column (step_cell start direction (Z.of_nat j)))
    = word !! j.

(** What the overlay shows: at every cell the letter of the grid, bare or
    wrapped in one of the colours [colors]. *)
Definition shows (colors : list str) (g : Grid) : Prop :=
  ∀ r c x, cell (text g) r c = Some x →
    cell (highlighted g) r c = Some [x] ∨
    ∃ color, color ∈ colors ∧
             cell (highlighted g) r c = Some (decorated color x).

(** The characters kept by the word list, and texts that do not end with
    whitespace. *)
Definition nonspace (c : ascii) : bool := negb (isspace c).

Definition ends_clean (t : str) : Prop :=
  ∀ pre c, t = pre ++ [c] → isspace c = false.

Definition starts_clean (t : str) : Prop :=
  ∀ c r, t = c :: r → isspace c = false.

(** * Basic facts *)

Lemma len_nonneg {A} (l : list A) : 0 ≤ len l.
Proof. unfold len. lia. Qed.

Lemma len_app {A} (l k : list A) : len (l ++ k) = len l + len k.
Proof. unfold len. rewrite length_app. lia. Qed.

Lemma len_reversed {A} (l : list A) : len (reversed l) = len l.
Proof. unfold len, reversed. by rewrite length_reverse. Qed.

Lemma at_index_nat {A} (l : list A) (n : nat) :
  at_index l (Z.of_nat n) = l !! n.
Proof.
  unfold at_index. destruct (Z.ltb_spec (Z.of_nat n) 0); [lia|].
  by rewrite Nat2Z.id.
Qed.

Lemma at_index_Some {A} (l : list A) i x :
  at_index l i = Some x → 0 ≤ i < len l.
Proof.
  unfold at_index, len. destruct (Z.ltb_spec i 0); [done|].
  intros Hl. apply lookup_lt_Some in Hl. lia.
Qed.

Lemma at_index_is_Some {A} (l : list A) i :
  0 ≤ i < len l → is_Some (at_index l i).
Proof.
  unfold at_index, len. intros Hi.
  destruct (Z.ltb_spec i 0); [lia|].
  apply lookup_lt_is_Some. lia.
Qed.

Lemma at_index_None {A} (l : list A) i :
  i < 0 ∨ len l ≤ i → at_index l i = None.
Proof.
  unfold at_index, len. intros Hi.
  destruct (Z.ltb_spec i 0); [done|].
  apply lookup_ge_None. lia.
Qed.

Lemma getitem_in_range {A} (l : list A) i :
  0 ≤ i < len l → ∃ x, getitem l i = inr x ∧ at_index l i = Some x.
Proof.
  intros Hi. destruct (at_index_is_Some l i Hi) as [x Hx].
  exists x. split; [|done].
  unfold getitem, norm_index. unfold at_index in Hx.
  destruct (Z.leb_spec 0 i); [|lia].
  destruct (Z.ltb_spec i (len l)); [|lia].
  destruct (Z.ltb_spec i 0); [lia|]. by rewrite Hx.
Qed.

Lemma getitem_at_index {A} (l : list A) i x :
  at_index l i = Some x → getitem l i = inr x.
Proof.
  intros Hx. destruct (getitem_in_range l i) as [y [Hy Hy']].
  - by eapply at_index_Some.
  - congruence.
Qed.

Lemma getitem_too_far {A} (l : list A) i :
  len l ≤ i → getitem l i = inl IndexError.
Proof.
  intros Hi. unfold getitem, norm_index. pose proof (len_nonneg l).
  destruct (Z.leb_spec 0 i); [|lia].
  by destruct (Z.ltb_spec i (len l)); [lia|].
Qed.

Lemma setitem_in_range {A} (l : list A) i x :
  0 ≤ i < len l → setitem l i x = inr (<[Z.to_nat i := x]> l).
Proof.
  intros Hi. unfold setitem, norm_index.
  destruct (Z.leb_spec 0 i); [|lia].
  by destruct (Z.ltb_spec i (len l)); [|lia].
Qed.

Lemma append_at_in_range {A} (l : list (list A)) i x :
  0 ≤ i < len l →
  ∃ r, l !! Z.to_nat i = Some r ∧
       append_at l i x = inr (<[Z.to_nat i := r ++ [x]]> l).
Proof.
  intros Hi. destruct (getitem_in_range l i Hi) as [r [Hg Ha]].
  exists r. unfold append_at. rewrite Hg. simpl.
  rewrite setitem_in_range by done. split; [|done].
  unfold at_index in Ha. by destruct (Z.ltb_spec i 0); [lia|].
Qed.

Lemma append_at_too_far {A} (l : list (list A)) i x :
  len l ≤ i → append_at l i x = inl IndexError.
Proof. intros Hi. unfold append_at. by rewrite getitem_too_far. Qed.

Lemma enumerate_from_lookup {A} (l : list A) n (k : nat) :
  enumerate_from n l !! k = (λ x, (n + Z.of_nat k, x)) <$> l !! k.
Proof.
  revert n k. induction l as [|x l IH]; intros n [|k]; simpl; try done.
  - do 2 f_equal. lia.
  - rewrite IH. destruct (l !! k); simpl; [|done]. do 2 f_equal. lia.
Qed.

(** * Substring search *)

Lemma startswith_lookup (w row : str) :
  startswith row w = true ↔
  ∀ j : nat, (j < length w)%nat → row !! j = w !! j.
Proof.
  revert row. induction w as [|a w IH]; intros row; simpl.
  - split; [intros _ j Hj; lia|done].
  - destruct row as [|b row].
    + split; [done|]. intros H. specialize (H 0%nat ltac:(lia)). done.
    + rewrite andb_true_iff, Ascii.eqb_eq, IH. split.
      * intros [-> H] [|j] Hj; simpl; [done|]. apply H. lia.
      * intros H. split.
        -- specialize (H 0%nat ltac:(lia)). simpl in H. congruence.
        -- intros j Hj. apply (H (S j)). lia.
Qed.

Lemma startswith_app (w row : str) :
  startswith row w = true ↔ ∃ post, row = w ++ post.
Proof.
  revert row. induction w as [|a w IH]; intros row; simpl.
  - split; [eauto|done].
  - destruct row as [|b row].
    + split; [done|]. by intros [post H].
    + rewrite andb_true_iff, Ascii.eqb_eq, IH. split.
      * intros [-> [post ->]]. eauto.
      * intros [post H]. injection H as -> ->. eauto.
Qed.

Lemma startswith_length (w row : str) :
  startswith row w = true → (length w ≤ length row)%nat.
Proof.
  intros [post ->]%startswith_app. rewrite length_app. lia.
Qed.

(** [word in row] holds exactly when [word] starts at some offset. *)
Lemma str_in_true (w row : str) :
  str_in w row = true ↔
  ∃ n : nat, (n ≤ length row)%nat ∧ startswith (drop n row) w = true.
Proof.
  induction row as [|b row IH].
  - simpl. rewrite orb_false_r. split.
    + intros H. exists 0%nat. by rewrite drop_0.
    + intros [n [Hn H]]. by rewrite drop_nil in H.
  - cbn [str_in]. rewrite orb_true_iff, IH. split.
    + intros [H|[n [Hn H]]].
      * exists 0%nat. split; [lia|]. by rewrite drop_0.
      * exists (S n). split; [simpl; lia|]. done.
    + intros [[|n] [Hn H]].
      * left. by rewrite drop_0 in H.
      * right. exists n. split; [simpl in Hn; lia|]. done.
Qed.

Lemma str_in_occurs (w row : str) :
  str_in w row = true ↔ occurs w row.
Proof.
  rewrite str_in_true. split.
  - intros [n [Hn [post H]%startswith_app]].
    exists (take n row), post. by rewrite <- H, take_drop.
  - intros [pre [post ->]]. exists (length pre). split.
    + rewrite length_app. lia.
    + rewrite drop_app_length. apply startswith_app. eauto.
Qed.

(** [row.find(word)] is the least offset where [word] starts, when
    [word in row]; it is [-1] otherwise. *)
Lemma find_from_spec (w row : str) (i : Z) :
  (str_in w row = false ∧ find_from w row i = -1) ∨
  (str_in w row = true ∧
   ∃ n : nat, find_from w row i = i + Z.of_nat n ∧
     (n ≤ length row)%nat ∧
     startswith (drop n row) w = true ∧
     ∀ m : nat, (m < n)%nat → startswith (drop m row) w = false).
Proof.
  revert i. induction row as [|b row IH]; intros i.
  - simpl. rewrite orb_false_r. destruct (startswith [] w) eqn:E.
    + right. split; [done|]. exists 0%nat.
      repeat split; [lia|done|done|intros; lia].
    + by left.
  - cbn [find_from str_in]. destruct (startswith (b :: row) w) eqn:E.
    + right. split; [done|]. exists 0%nat.
      repeat split; [lia|simpl; lia|done|intros; lia].
    + simpl. destruct (IH (i + 1)) as [[H1 H2]|[H1 [n [H2 [H3 [H4 H5]]]]]].
      * by left.
      * right. split; [done|]. exists (S n).
        repeat split; [lia|simpl; lia|done|].
        intros [|m] Hm; [done|]. apply H5. lia.
Qed.

Lemma find_absent (w row : str) :
  str_in w row = false → find row w = -1.
Proof.
  intros H. unfold find.
  destruct (find_from_spec w row 0) as [[_ H2]|[H1 _]]; congruence.
Qed.

Lemma find_present (w row : str) :
  str_in w row = true →
  ∃ n : nat, find row w = Z.of_nat n ∧
    (n + length w ≤ length row)%nat ∧
    startswith (drop n row) w = true ∧
    ∀ m : nat, (m < n)%nat → startswith (drop m row) w = false.
Proof.
  intros H. unfold find.
  destruct (find_from_spec w row 0) as [[H1 _]|[_ [n [H2 [H3 [H4 H5]]]]]];
    [congruence|].
  exists n. repeat split; [lia| |done|done].
  apply startswith_length in H4. rewrite length_drop in H4. lia.
Qed.

(** The membership test agrees with the sign of [find]. *)
Lemma str_in_find (w row : str) :
  str_in w row = (0 <=? find row w).
Proof.
  destruct (str_in w row) eqn:E.
  - destruct (find_present w row E) as [n [-> _]]. symmetry.
    apply Z.leb_le. lia.
  - by rewrite find_absent.
Qed.

(** ** Occurrences by position *)

Lemma at_index_reversed {A} (l : list A) (i : Z) :
  at_index (reversed l) i = at_index l (len l - 1 - i).
Proof.
  unfold reversed.
  destruct (Z.ltb_spec i 0) as [Hneg|Hpos].
  { rewrite !at_index_None; [done|right; lia|left; lia]. }
  destruct (Z.ltb_spec i (len l)) as [Hlt|Hge].
  - unfold at_index, len in *.
    destruct (Z.ltb_spec i 0); [lia|].
    destruct (Z.ltb_spec (Z.of_nat (length l) - 1 - i) 0); [lia|].
    rewrite reverse_lookup by lia. f_equal. lia.
  - rewrite !at_index_None; [done|left; lia|].
    right. fold (reversed l). rewrite len_reversed. lia.
Qed.

Lemma startswith_drop_reads (w row : str) (n : nat) :
  startswith (drop n row) w = true ↔ reads row (Z.of_nat n) 1 w.
Proof.
  rewrite startswith_lookup. unfold reads.
  split; intros H j Hj; specialize (H j Hj).
  - replace (Z.of_nat n + Z.of_nat j * 1) with (Z.of_nat (n + j)) by lia.
    rewrite at_index_nat. by rewrite lookup_drop in H.
  - rewrite lookup_drop, <- at_index_nat, <- H. f_equal. lia.
Qed.

Lemma reads_reversed (w row : str) (k : Z) :
  reads (reversed row) k 1 w ↔ reads row (len row - 1 - k) (-1) w.
Proof.
  unfold reads. split; intros H j Hj; specialize (H j Hj).
  - rewrite at_index_reversed in H. rewrite <- H. f_equal. lia.
  - rewrite at_index_reversed, <- H. f_equal. lia.
Qed.

Lemma reads_start (w row : str) (k step : Z) :
  w ≠ [] → reads row k step w → 0 ≤ k < len row.
Proof.
  intros Hw H. destruct w as [|a w]; [done|].
  specialize (H 0%nat ltac:(simpl; lia)). simpl in H.
  apply at_index_Some in H. lia.
Qed.

(** ** [find_in_group] by cases *)

(** The two examples of the docstring of [find_in_group]. *)
Example find_in_group_doc1 :
  find_in_group (s "BATHROOM") (s "RRXIEWFUFPURLWLMOORHTABS")
  = Some (22, false).
Proof. reflexivity. Qed.

Example find_in_group_doc2 :
  find_in_group (s "SEAT") (s "XSEATHSULFUSGLPNZUUMLEMJ") = Some (1, true).
Proof. reflexivity. Qed.

Lemma find_in_group_absent (w row : str) :
  find_in_group w row = None ↔
  str_in w row = false ∧ str_in w (reversed row) = false.
Proof.
  unfold find_in_group.
  destruct (str_in w row); [split; [done|by intros []]|].
  destruct (str_in w (reversed row)); [split; [done|by intros []]|done].
Qed.

Lemma find_in_group_forward (w row : str) :
  str_in w row = true → find_in_group w row = Some (find row w, true).
Proof. intros H. unfold find_in_group. by rewrite H. Qed.

Lemma find_in_group_backward (w row : str) :
  str_in w row = false → str_in w (reversed row) = true →
  find_in_group w row = Some (len row - 1 - find (reversed row) w, false).
Proof. intros H1 H2. unfold find_in_group. by rewrite H1, H2. Qed.

Lemma str_in_empty (row : str) : str_in [] row = true.
Proof. by destruct row. Qed.

(** A forward hit: the leftmost position from which the word is spelled
    left to right. *)
Lemma find_in_group_true (w row : str) (k : Z) :
  find_in_group w row = Some (k, true) →
  0 ≤ k ∧ k + len w ≤ len row ∧ reads row k 1 w ∧
  ∀ k', 0 ≤ k' < k → ¬ reads row k' 1 w.
Proof.
  unfold find_in_group. destruct (str_in w row) eqn:E.
  - intros [= <-]. destruct (find_present w row E) as [n [-> [Hn [Hs Hmin]]]].
    unfold len. repeat split; [lia|lia|by apply startswith_drop_reads|].
    intros k' Hk' Hr. specialize (Hmin (Z.to_nat k') ltac:(lia)).
    replace k' with (Z.of_nat (Z.to_nat k')) in Hr by lia.
    apply startswith_drop_reads in Hr. congruence.
  - by destruct (str_in w (reversed row)).
Qed.

(** A backward hit: there is no forward occurrence, and the index is the
    rightmost position from which the word is spelled right to left. *)
Lemma find_in_group_false (w row : str) (k : Z) :
  find_in_group w row = Some (k, false) →
  str_in w row = false ∧ w ≠ [] ∧
  k = len row - 1 - find (reversed row) w ∧
  len w - 1 ≤ k < len row ∧ reads row k (-1) w ∧
  ∀ k', reads row k' (-1) w → k' ≤ k.
Proof.
  unfold find_in_group. destruct (str_in w row) eqn:E; [done|].
  destruct (str_in w (reversed row)) eqn:E'; [|done].
  intros [= <-]. split; [done|].
  assert (Hw : w ≠ []) by (intros ->; by rewrite str_in_empty in E).
  split; [done|].
  destruct (find_present w _ E') as [n [-> [Hn [Hs Hmin]]]].
  split; [done|].
  assert (Hlen : length (reversed row) = length row)
    by (unfold reversed; apply length_reverse).
  rewrite Hlen in Hn. unfold len. split; [lia|]. split.
  - apply startswith_drop_reads, reads_reversed in Hs.
    unfold len in Hs. done.
  - intros k' Hr. pose proof (reads_start _ _ _ _ Hw Hr) as Hk'.
    unfold len in Hk'.
    destruct (Z_le_gt_dec k' (Z.of_nat (length row) - 1 - Z.of_nat n))
      as [|Hgt]; [done|exfalso].
    specialize (Hmin (Z.to_nat (Z.of_nat (length row) - 1 - k')) ltac:(lia)).
    assert (startswith
              (drop (Z.to_nat (Z.of_nat (length row) - 1 - k')) (reversed row))
              w = true) as Hs'; [|congruence].
    apply startswith_drop_reads, reads_reversed.
    unfold len.
    replace (Z.of_nat (length row) - 1 -
             Z.of_nat (Z.to_nat (Z.of_nat (length row) - 1 - k')))
      with k' by lia.
    done.
Qed.

(** * The constructor

    What the two nested loops of [__post_init__] leave in the bucket lists,
    position by position. *)

Section buckets.
Context {A : Type}.
Implicit Types (l : list (list A)) (line xs : list A).

Lemma extend_length l n xs : length (extend l n xs) = length l.
Proof.
  unfold extend. destruct (l !! n); [|done]. by rewrite length_insert.
Qed.

Lemma extend_lookup l n xs j :
  extend l n xs !! j =
  (λ r, if decide (j = n) then r ++ xs else r) <$> l !! j.
Proof.
  unfold extend. destruct (l !! n) as [r|] eqn:E.
  - destruct (decide (j = n)) as [->|Hne].
    + rewrite list_lookup_insert_eq by (by eapply lookup_lt_Some).
      by rewrite E.
    + rewrite list_lookup_insert_ne by done. by destruct (l !! j).
  - destruct (decide (j = n)) as [->|Hne]; [by rewrite E|].
    by destruct (l !! j).
Qed.

Lemma extend_extend l n xs ys :
  extend (extend l n xs) n ys = extend l n (xs ++ ys).
Proof.
  apply list_eq. intros j. rewrite !extend_lookup.
  destruct (l !! j); simpl; [|done].
  destruct (decide (j = n)); [|done]. by rewrite app_assoc.
Qed.

Lemma extend_nil l n : extend l n [] = l.
Proof.
  apply list_eq. intros j. rewrite extend_lookup.
  destruct (l !! j); simpl; [|done].
  destruct (decide (j = n)); [|done]. by rewrite app_nil_r.
Qed.

Lemma append_at_extend l i x :
  0 ≤ i < len l → append_at l i x = inr (extend l (Z.to_nat i) [x]).
Proof.
  intros Hi. destruct (append_at_in_range l i x Hi) as [r [Hr ->]].
  unfold extend. by rewrite Hr.
Qed.

Lemma spread_length l start line :
  length (spread l start line) = length l.
Proof.
  revert l start. induction line as [|x line IH]; intros l start; simpl.
  - done.
  - by rewrite IH, extend_length.
Qed.

Lemma spread_lookup l start line (j : nat) :
  0 ≤ start →
  spread l start line !! j =
  (λ r, r ++ option_list (at_index line (Z.of_nat j - start))) <$> l !! j.
Proof.
  revert l start. induction line as [|x line IH]; intros l start Hs; simpl.
  - destruct (l !! j); simpl; [|done].
    rewrite at_index_None by (unfold len; simpl; lia).
    simpl. by rewrite app_nil_r.
  - rewrite IH by lia. rewrite extend_lookup.
    destruct (l !! j) as [r|]; simpl; [|done]. f_equal.
    destruct (decide (j = Z.to_nat start)) as [->|Hne].
    + rewrite Z2Nat.id, Z.sub_diag by done.
      rewrite at_index_None by lia. simpl. by rewrite <- app_assoc.
    + destruct (Z.ltb_spec (Z.of_nat j) start).
      * rewrite !at_index_None by lia. done.
      * f_equal. f_equal. unfold at_index.
        destruct (Z.ltb_spec (Z.of_nat j - (start + 1)) 0); [lia|].
        destruct (Z.ltb_spec (Z.of_nat j - start) 0); [lia|].
        replace (Z.to_nat (Z.of_nat j - start))
          with (S (Z.to_nat (Z.of_nat j - (start + 1)))) by lia.
        done.
Qed.

Lemma spread_rows_length shift l r0 rows :
  length (spread_rows shift l r0 rows) = length l.
Proof.
  revert l r0. induction rows as [|line rows IH]; intros l r0; simpl.
  - done.
  - by rewrite IH, spread_length.
Qed.

(** The content of bucket [j] after all the lines: from each line, in
    order, the letter that falls into the bucket, if any. *)
Lemma spread_rows_lookup shift l r0 rows (j : nat) :
  (∀ k : nat, (k < length rows)%nat → 0 ≤ shift (r0 + Z.of_nat k)) →
  spread_rows shift l r0 rows !! j =
  (λ r, r ++ flat_map
          (λ rl, option_list (at_index rl.2 (Z.of_nat j - shift rl.1)))
          (enumerate_from r0 rows)) <$> l !! j.
Proof.
  revert l r0. induction rows as [|line rows IH]; intros l r0 Hs; simpl.
  - destruct (l !! j); simpl; [|done]. by rewrite app_nil_r.
  - rewrite IH.
    + rewrite spread_lookup.
      * destruct (l !! j); simpl; [|done]. by rewrite <- app_assoc.
      * specialize (Hs 0%nat ltac:(simpl; lia)).
        by rewrite Z.add_0_r in Hs.
    + intros k Hk. specialize (Hs (S k) ltac:(simpl; lia)).
      by replace (r0 + 1 + Z.of_nat k) with (r0 + Z.of_nat (S k)) by lia.
Qed.
End buckets.

(** ** The two loops *)

Lemma len_cons {A} (x : A) (l : list A) : len (x :: l) = 1 + len l.
Proof. unfold len. simpl. lia. Qed.

Lemma len_extend {A} (l : list (list A)) n xs : len (extend l n xs) = len l.
Proof. unfold len. by rewrite extend_length. Qed.

Lemma len_spread {A} (l : list (list A)) start line :
  len (spread l start line) = len l.
Proof. unfold len. by rewrite spread_length. Qed.

Lemma len_spread_rows {A} shift (l : list (list A)) r0 rows :
  len (spread_rows shift l r0 rows) = len l.
Proof. unfold len. by rewrite spread_rows_length. Qed.

Lemma extend_last {A} (l : list (list A)) (xs : list A) :
  extend (l ++ [[]]) (length l) xs = l ++ [xs].
Proof.
  unfold extend. rewrite list_lookup_middle by done.
  rewrite insert_app_r_alt by lia. by rewrite Nat.sub_diag.
Qed.

(** The inner loop over a line whose letters all find their buckets. *)
Lemma cell_loop (rc row : Z) (line : str) :
  ∀ (c0 : Z) (b : builder),
    0 ≤ c0 → c0 + len line ≤ len (b_cols b) →
    0 ≤ row + c0 → row + c0 + len line ≤ len (b_diag_up b) →
    0 ≤ c0 - row + rc - 1 →
    c0 - row + rc - 1 + len line ≤ len (b_diag_dn b) →
    0 ≤ row < len (b_highlighted b) →
    for_each (cell_step rc row) (enumerate_from c0 line) b =
    inr (mkBuilder
           (spread (b_cols b) c0 line)
           (spread (b_diag_up b) (row + c0) line)
           (spread (b_diag_dn b) (c0 - row + rc - 1) line)
           (extend (b_highlighted b) (Z.to_nat row) (letters line))).
Proof.
  induction line as [|x line IH]; intros c0 b H1 H2 H3 H4 H5 H6 H7.
  - simpl. rewrite extend_nil. by destruct b.
  - rewrite len_cons in *. pose proof (len_nonneg line).
    cbn [enumerate_from for_each]. unfold cell_step at 1.
    rewrite !append_at_extend by lia. cbn [bind ret].
    rewrite IH; cbn [b_cols b_diag_up b_diag_dn b_highlighted];
      rewrite ?len_extend; try lia.
    cbn [spread letters map]. rewrite extend_extend. do 2 f_equal.
    + f_equal. lia.
    + f_equal. lia.
Qed.

(** The inner loop over a line longer than the list of columns: the
    letter past the last column raises. *)
Lemma cell_loop_fail (rc row : Z) (line : str) :
  ∀ (c0 : Z) (b : builder),
    0 ≤ c0 ≤ len (b_cols b) → len (b_cols b) < c0 + len line →
    0 ≤ row + c0 → row + len (b_cols b) ≤ len (b_diag_up b) →
    0 ≤ c0 - row + rc - 1 →
    len (b_cols b) - row + rc - 1 ≤ len (b_diag_dn b) →
    0 ≤ row < len (b_highlighted b) →
    for_each (cell_step rc row) (enumerate_from c0 line) b = inl IndexError.
Proof.
  induction line as [|x line IH]; intros c0 b H1 H2 H3 H4 H5 H6 H7.
  - unfold len in H2 at 2. simpl in H2. lia.
  - rewrite len_cons in *. pose proof (len_nonneg line).
    cbn [enumerate_from for_each]. unfold cell_step at 1.
    destruct (Z_lt_ge_dec c0 (len (b_cols b))) as [Hlt|Hge].
    + rewrite !append_at_extend by lia. cbn [bind ret].
      apply IH; cbn [b_cols b_diag_up b_diag_dn b_highlighted];
        rewrite ?len_extend; lia.
    + by rewrite append_at_too_far by lia.
Qed.

Section rows.

Variables rc cc : Z.

Lemma row_step_ok (r0 : Z) (b : builder) (line : str) :
  0 ≤ r0 < rc → sized rc cc r0 b → len line ≤ cc →
  row_step rc b (r0, line) =
  inr (mkBuilder
         (spread (b_cols b) 0 line)
         (spread (b_diag_up b) (r0 + 0) line)
         (spread (b_diag_dn b) (0 - r0 + rc - 1) line)
         (b_highlighted b ++ [letters line])).
Proof.
  intros Hr (Hc & Hu & Hd & Hh) Hl. unfold row_step, enumerate.
  pose proof (len_nonneg line).
  rewrite cell_loop; cbn [b_cols b_diag_up b_diag_dn b_highlighted];
    rewrite ?len_app; try (unfold len in *; simpl; lia).
  do 2 f_equal. rewrite <- Hh. unfold len. rewrite Nat2Z.id.
  apply extend_last.
Qed.

Lemma row_step_fail (r0 : Z) (b : builder) (line : str) :
  0 ≤ r0 < rc → sized rc cc r0 b → cc < len line →
  row_step rc b (r0, line) = inl IndexError.
Proof.
  intros Hr (Hc & Hu & Hd & Hh) Hl. unfold row_step, enumerate.
  pose proof (len_nonneg (b_cols b)).
  apply cell_loop_fail; cbn [b_cols b_diag_up b_diag_dn b_highlighted];
    rewrite ?len_app; unfold len in *; simpl; lia.
Qed.

Lemma row_loop (rows : list str) :
  ∀ (r0 : Z) (b : builder),
    0 ≤ r0 → r0 + len rows ≤ rc → sized rc cc r0 b →
    Forall (λ line, len line ≤ cc) rows →
    for_each (row_step rc) (enumerate_from r0 rows) b =
    inr (mkBuilder
           (spread_rows (λ _, 0) (b_cols b) r0 rows)
           (spread_rows (λ r, r + 0) (b_diag_up b) r0 rows)
           (spread_rows (λ r, 0 - r + rc - 1) (b_diag_dn b) r0 rows)
           (b_highlighted b ++ map letters rows)).
Proof.
  induction rows as [|line rows IH]; intros r0 b Hr0 Hrc Hb Hall.
  - simpl. rewrite app_nil_r. by destruct b.
  - rewrite len_cons in Hrc. pose proof (len_nonneg rows).
    apply Forall_cons in Hall as [Hline Hall].
    cbn [enumerate_from for_each].
    rewrite row_step_ok by (done || lia). cbn [bind].
    rewrite IH; [|lia|lia| |done].
    + cbn [b_cols b_diag_up b_diag_dn b_highlighted spread_rows map].
      by rewrite <- app_assoc.
    + destruct Hb as (Hc & Hu & Hd & Hh). unfold sized.
      cbn [b_cols b_diag_up b_diag_dn b_highlighted].
      rewrite !len_spread, len_app. unfold len in *. simpl.
      repeat split; lia.
Qed.

Lemma row_loop_fail (rows : list str) :
  ∀ (r0 : Z) (b : builder),
    0 ≤ r0 → r0 + len rows ≤ rc → sized rc cc r0 b →
    Exists (λ line, cc < len line) rows →
    for_each (row_step rc) (enumerate_from r0 rows) b = inl IndexError.
Proof.
  induction rows as [|line rows IH]; intros r0 b Hr0 Hrc Hb Hex.
  - by apply Exists_nil in Hex.
  - rewrite len_cons in Hrc. pose proof (len_nonneg rows).
    cbn [enumerate_from for_each].
    destruct (Z_lt_ge_dec cc (len line)) as [Hlong|Hshort].
    + by rewrite row_step_fail by (done || lia).
    + rewrite row_step_ok by (done || lia). cbn [bind].
      apply Exists_cons in Hex as [Hex|Hex]; [lia|].
      apply IH; [lia|lia| |done].
      destruct Hb as (Hc & Hu & Hd & Hh). unfold sized.
      cbn [b_cols b_diag_up b_diag_dn b_highlighted].
      rewrite !len_spread, len_app. unfold len in *. simpl.
      repeat split; lia.
Qed.

End rows.

(** ** The constructor as a whole *)

Lemma len_replicate {A} (n : Z) (x : A) :
  0 ≤ n → len (replicate (Z.to_nat n) x) = n.
Proof. intros Hn. unfold len. rewrite length_replicate. lia. Qed.

Lemma getitem_head {A} (x : A) (l : list A) : getitem (x :: l) 0 = inr x.
Proof.
  apply getitem_at_index. done.
Qed.

Lemma width_cons (line : str) (txt : list str) :
  width (line :: txt) = len line.
Proof. done. Qed.

(** Construction succeeds when no row is longer than the first, and then
    leaves the rows spread over the bucket lists. *)
Lemma post_init_ok (txt : list str) :
  txt ≠ [] → Forall (λ line, len line ≤ width txt) txt →
  post_init txt =
  inr (mkGrid txt
         (spread_rows (λ _, 0)
            (replicate (Z.to_nat (width txt)) []) 0 txt)
         (map reversed
            (spread_rows (λ r, r + 0)
               (replicate (Z.to_nat (len txt + width txt - 1)) []) 0 txt))
         (spread_rows (λ r, 0 - r + len txt - 1)
            (replicate (Z.to_nat (len txt + width txt - 1)) []) 0 txt)
         (map letters txt)).
Proof.
  intros Hne Hall. destruct txt as [|line txt]; [done|].
  unfold post_init. rewrite getitem_head. cbn [bind].
  rewrite width_cons in *. unfold enumerate.
  pose proof (len_nonneg line). pose proof (len_nonneg txt).
  rewrite (row_loop (len (line :: txt)) (len line));
    [done|lia|lia| |done].
  rewrite len_cons. unfold sized.
  cbn [b_cols b_diag_up b_diag_dn b_highlighted].
  rewrite !len_replicate by lia. done.
Qed.

(** Construction raises [IndexError] when some row is longer than the
    first. *)
Lemma post_init_too_long (txt : list str) :
  Exists (λ line, width txt < len line) txt →
  post_init txt = inl IndexError.
Proof.
  intros Hex. destruct txt as [|line txt]; [by apply Exists_nil in Hex|].
  unfold post_init. rewrite getitem_head. cbn [bind].
  rewrite width_cons in *. unfold enumerate.
  pose proof (len_nonneg line). pose proof (len_nonneg txt).
  rewrite (row_loop_fail (len (line :: txt)) (len line));
    [done|lia|lia| |done].
  rewrite len_cons. unfold sized.
  cbn [b_cols b_diag_up b_diag_dn b_highlighted].
  rewrite !len_replicate by lia. done.
Qed.

Lemma post_init_empty : post_init [] = inl IndexError.
Proof. reflexivity. Qed.

(** ** The content of a bucket *)

Lemma at_index_head {A} (x : A) (l : list A) : at_index (x :: l) 0 = Some x.
Proof. done. Qed.

Lemma at_index_tail {A} (x : A) (l : list A) (i : Z) :
  0 < i → at_index (x :: l) i = at_index l (i - 1).
Proof.
  intros Hi. unfold at_index.
  destruct (Z.ltb_spec i 0); [lia|]. destruct (Z.ltb_spec (i - 1) 0); [lia|].
  replace (Z.to_nat i) with (S (Z.to_nat (i - 1))) by lia. done.
Qed.

(** When the rows that contribute a letter are those of index [a] to
    [b - 1], the letters collected are theirs, in order. *)
Lemma picks_interval (F : Z → str → option ascii) (rows : list str) :
  ∀ r0 a b : Z,
    r0 ≤ a → a ≤ b → b ≤ r0 + len rows →
    (∀ (k : nat) line, rows !! k = Some line →
       (a ≤ r0 + Z.of_nat k < b → is_Some (F (r0 + Z.of_nat k) line)) ∧
       (¬ (a ≤ r0 + Z.of_nat k < b) → F (r0 + Z.of_nat k) line = None)) →
    let L := flat_map (λ rl, option_list (F rl.1 rl.2))
                      (enumerate_from r0 rows) in
    len L = b - a ∧
    ∀ i, 0 ≤ i < b - a →
      at_index L i = at_index rows (a - r0 + i) ≫= F (a + i).
Proof.
  induction rows as [|line rows IH]; intros r0 a b Ha Hab Hb HF.
  - unfold len in Hb. simpl in *. split; [unfold len; simpl; lia|].
    intros i Hi. lia.
  - rewrite len_cons in Hb. cbn [enumerate_from flat_map fst snd].
    assert (HF' : ∀ (k : nat) line', rows !! k = Some line' →
       (a ≤ r0 + 1 + Z.of_nat k < b →
        is_Some (F (r0 + 1 + Z.of_nat k) line')) ∧
       (¬ (a ≤ r0 + 1 + Z.of_nat k < b) →
        F (r0 + 1 + Z.of_nat k) line' = None)).
    { intros k line' Hk. specialize (HF (S k) line' Hk).
      by replace (r0 + Z.of_nat (S k)) with (r0 + 1 + Z.of_nat k) in HF
        by lia. }
    destruct (HF 0%nat line eq_refl) as [Hin Hout].
    rewrite Z.add_0_r in Hin, Hout.
    destruct (Z_lt_ge_dec r0 a) as [Hlt|Hge].
    + rewrite Hout by lia. change (option_list None) with (@nil ascii).
      cbn [app].
      destruct (IH (r0 + 1) a b) as [Hlen Hat]; [lia|lia|lia|done|].
      split; [done|]. intros i Hi. rewrite Hat by done.
      rewrite (at_index_tail line) by lia. do 2 f_equal. lia.
    + assert (a = r0) as -> by lia.
      destruct (Z_lt_ge_dec r0 b) as [Hlt|Hge'].
      * destruct Hin as [x Hx]; [lia|]. rewrite Hx.
        change (option_list (Some x)) with [x]. cbn [app].
        destruct (IH (r0 + 1) (r0 + 1) b) as [Hlen Hat]; [lia|lia|lia| |].
        { intros k line' Hk. destruct (HF' k line' Hk) as [Hi Ho].
          split; intros; [apply Hi|apply Ho]; lia. }
        split; [rewrite len_cons; lia|]. intros i Hi.
        destruct (Z.eq_dec i 0) as [->|Hne].
        -- rewrite Z.sub_diag, !Z.add_0_r. simpl. done.
        -- rewrite !at_index_tail by lia. rewrite Hat by lia.
           replace (r0 + 1 - (r0 + 1) + (i - 1)) with (r0 - r0 + i - 1)
             by lia.
           by replace (r0 + 1 + (i - 1)) with (r0 + i) by lia.
      * assert (b = r0) as -> by lia. rewrite Hout by lia.
        destruct (IH (r0 + 1) (r0 + 1) (r0 + 1)) as [Hlen Hat];
          [lia|lia| pose proof (len_nonneg rows); lia| |].
        { intros k line' Hk. destruct (HF' k line' Hk) as [_ Hn].
          split; [lia|]. intros _. apply Hn. lia. }
        change (option_list None) with (@nil ascii). cbn [app].
        split; [lia|]. intros i Hi. lia.
Qed.

Lemma well_formed_row (txt : list str) (k : nat) (line : str) :
  well_formed txt → txt !! k = Some line → len line = width txt.
Proof.
  intros [_ Hall] Hk. rewrite Forall_lookup in Hall. by eapply Hall.
Qed.

Lemma well_formed_size (txt : list str) :
  well_formed txt → 1 ≤ len txt ∧ 0 ≤ width txt.
Proof.
  intros [Hne _]. split; [|apply len_nonneg].
  destruct txt; [done|]. rewrite len_cons. pose proof (len_nonneg txt). lia.
Qed.

Lemma cell_in_bounds (txt : list str) (r c : Z) :
  well_formed txt → 0 ≤ r < len txt → 0 ≤ c < width txt →
  is_Some (cell txt r c).
Proof.
  intros Hwf Hr Hc. unfold cell.
  destruct (at_index_is_Some txt r Hr) as [line Hl]. rewrite Hl.
  apply at_index_is_Some. unfold at_index in Hl.
  destruct (Z.ltb_spec r 0); [lia|].
  by rewrite (well_formed_row txt _ line Hwf Hl).
Qed.

Lemma cell_Some (txt : list str) (r c : Z) (x : ascii) :
  well_formed txt → cell txt r c = Some x →
  0 ≤ r < len txt ∧ 0 ≤ c < width txt.
Proof.
  intros Hwf. unfold cell. destruct (at_index txt r) as [line|] eqn:Hl; [|done].
  intros Hx. pose proof (at_index_Some _ _ _ Hl) as Hr.
  pose proof (at_index_Some _ _ _ Hx) as Hc. unfold at_index in Hl.
  destruct (Z.ltb_spec r 0); [lia|].
  by rewrite (well_formed_row txt _ line Hwf Hl) in Hc.
Qed.

(** In a well-formed grid, the bucket of index [j] of a family whose line
    of index [r] starts at bucket [shift r] collects one letter from each
    of the rows [a] to [b - 1] that reach it. *)
Lemma picked (txt : list str) (shift : Z → Z) (j a b : Z) :
  well_formed txt →
  0 ≤ a → a ≤ b → b ≤ len txt →
  (∀ r, 0 ≤ r < len txt → (a ≤ r < b ↔ 0 ≤ j - shift r < width txt)) →
  let L := flat_map (λ rl, option_list (at_index rl.2 (j - shift rl.1)))
                    (enumerate_from 0 txt) in
  len L = b - a ∧
  ∀ i, 0 ≤ i < b - a → at_index L i = cell txt (a + i) (j - shift (a + i)).
Proof.
  intros Hwf Ha Hab Hb Hiff.
  destruct (picks_interval (λ r line, at_index line (j - shift r)) txt 0 a b)
    as [Hlen Hat]; [lia|lia|lia| |].
  - intros k line Hk. rewrite Z.add_0_l.
    pose proof (well_formed_row txt k line Hwf Hk) as Hline.
    pose proof (lookup_lt_Some _ _ _ Hk) as Hlt.
    assert (0 ≤ Z.of_nat k < len txt) as Hr by (unfold len; lia).
    specialize (Hiff _ Hr). split.
    + intros Hin. apply at_index_is_Some. rewrite Hline. by apply Hiff.
    + intros Hout. apply at_index_None. rewrite Hline.
      destruct (Z_lt_ge_dec (j - shift (Z.of_nat k)) 0); [by left|].
      destruct (Z_lt_ge_dec (j - shift (Z.of_nat k)) (width txt));
        [|right; lia].
      exfalso. apply Hout, Hiff. lia.
  - split; [done|]. intros i Hi. cbn beta in Hat. rewrite Hat by done.
    rewrite Z.sub_0_r. unfold cell. by destruct (at_index txt (a + i)).
Qed.

(** ** The views of a constructed grid *)

Lemma grid_at_cell (txt : list str) (r c : Z) (x : ascii) :
  cell txt r c = Some x → grid_at txt r c = inr x.
Proof.
  unfold cell, grid_at. destruct (at_index txt r) as [line|] eqn:E; [|done].
  intros Hx. rewrite (getitem_at_index _ _ _ E). cbn [bind].
  by apply getitem_at_index.
Qed.

Lemma post_init_well_formed (txt : list str) :
  well_formed txt →
  post_init txt =
  inr (mkGrid txt
         (spread_rows (λ _, 0)
            (replicate (Z.to_nat (width txt)) []) 0 txt)
         (map reversed
            (spread_rows (λ r, r + 0)
               (replicate (Z.to_nat (len txt + width txt - 1)) []) 0 txt))
         (spread_rows (λ r, 0 - r + len txt - 1)
            (replicate (Z.to_nat (len txt + width txt - 1)) []) 0 txt)
         (map letters txt)).
Proof.
  intros [Hne Hall]. apply post_init_ok; [done|].
  eapply Forall_impl; [done|]. simpl. lia.
Qed.

Lemma at_index_buckets (shift : Z → Z) (n : Z) (txt : list str) (j : Z) v :
  (∀ r, 0 ≤ r < len txt → 0 ≤ shift r) →
  at_index (spread_rows shift (replicate (Z.to_nat n) []) 0 txt) j = Some v →
  0 ≤ j < n ∧
  v = flat_map (λ rl, option_list (at_index rl.2 (j - shift rl.1)))
               (enumerate_from 0 txt).
Proof.
  intros Hs Hv. pose proof (at_index_Some _ _ _ Hv) as Hj.
  rewrite len_spread_rows in Hj. unfold len in Hj.
  rewrite length_replicate in Hj. split; [lia|].
  unfold at_index in Hv. destruct (Z.ltb_spec j 0); [lia|].
  rewrite spread_rows_lookup in Hv.
  - rewrite lookup_replicate_2 in Hv by lia. simpl in Hv.
    rewrite Z2Nat.id in Hv by lia. congruence.
  - intros k Hk. apply Hs. unfold len. lia.
Qed.

Section views.

Variables (txt : list str) (g : Grid).
Hypothesis Hwf : well_formed txt.
Hypothesis Hg : post_init txt = inr g.

Lemma text_view : text g = txt.
Proof using Hwf Hg.
  rewrite post_init_well_formed in Hg by done. by injection Hg as <-.
Qed.

Lemma highlighted_init : highlighted g = map letters txt.
Proof using Hwf Hg.
  rewrite post_init_well_formed in Hg by done. by injection Hg as <-.
Qed.

Lemma columns_count : len (columns g) = width txt.
Proof using Hwf Hg.
  rewrite post_init_well_formed in Hg by done. injection Hg as <-.
  cbn [columns]. rewrite len_spread_rows.
  apply len_replicate, well_formed_size, Hwf.
Qed.

Lemma diag_up_right_count : len (diag_up_right g) = len txt + width txt - 1.
Proof using Hwf Hg.
  rewrite post_init_well_formed in Hg by done. injection Hg as <-.
  cbn [diag_up_right]. unfold len at 1. rewrite length_map.
  fold (len (spread_rows (λ r, r + 0)
          (replicate (Z.to_nat (len txt + width txt - 1)) []) 0 txt)).
  rewrite len_spread_rows. apply len_replicate.
  pose proof (well_formed_size txt Hwf). lia.
Qed.

Lemma diag_down_right_count :
  len (diag_down_right g) = len txt + width txt - 1.
Proof using Hwf Hg.
  rewrite post_init_well_formed in Hg by done. injection Hg as <-.
  cbn [diag_down_right]. rewrite len_spread_rows. apply len_replicate.
  pose proof (well_formed_size txt Hwf). lia.
Qed.

(** Column [c] holds the letters of the cells [(0, c)], [(1, c)], ... *)
Lemma columns_view (c : Z) (v : str) :
  at_index (columns g) c = Some v →
  len v = len txt ∧ ∀ r, 0 ≤ r < len txt → at_index v r = cell txt r c.
Proof using Hwf Hg.
  rewrite post_init_well_formed in Hg by done. injection Hg as <-.
  cbn [columns]. intros Hv.
  apply at_index_buckets in Hv as [Hc ->]; [|lia].
  pose proof (well_formed_size txt Hwf) as [Hrc Hcc].
  destruct (picked txt (λ _, 0) c 0 (len txt) Hwf) as [Hlen Hat];
    [lia|lia|lia| |].
  - intros r Hr. lia.
  - split; [lia|]. intros r Hr. cbn beta in Hat. rewrite Hat by lia.
    f_equal; lia.
Qed.

(** The up-right diagonal [d] holds the letters of the cells
    [(up_hi - 1, ...)], [(up_hi - 2, ...)], ... of the line
    [row + col = d]. *)
Lemma diag_up_right_view (d : Z) (v : str) :
  at_index (diag_up_right g) d = Some v →
  0 ≤ d < len txt + width txt - 1 ∧
  len v = up_hi (len txt) (width txt) d - up_lo (len txt) (width txt) d ∧
  ∀ i, 0 ≤ i < len v →
    at_index v i =
    cell txt (up_hi (len txt) (width txt) d - 1 - i)
             (d - (up_hi (len txt) (width txt) d - 1 - i)).
Proof using Hwf Hg.
  rewrite post_init_well_formed in Hg by done. injection Hg as <-.
  cbn [diag_up_right]. intros Hv.
  unfold at_index in Hv. destruct (Z.ltb_spec d 0) as [|Hd]; [done|].
  rewrite list_lookup_fmap in Hv.
  destruct (_ !! Z.to_nat d) as [L|] eqn:HL; [|done].
  injection Hv as <-.
  assert (at_index (spread_rows (λ r, r + 0)
            (replicate (Z.to_nat (len txt + width txt - 1)) []) 0 txt) d
          = Some L) as HL'.
  { unfold at_index. by destruct (Z.ltb_spec d 0); [lia|]. }
  apply at_index_buckets in HL' as [Hd' ->]; [|lia].
  pose proof (well_formed_size txt Hwf) as [Hrc Hcc].
  destruct (picked txt (λ r, r + 0) d (up_lo (len txt) (width txt) d)
              (up_hi (len txt) (width txt) d) Hwf)
    as [Hlen Hat]; unfold up_lo, up_hi in *; [lia|lia|lia| |].
  - intros r Hr. lia.
  - split; [done|]. rewrite len_reversed. split; [done|].
    intros i Hi. rewrite at_index_reversed. cbn beta in Hat.
    rewrite Hat by lia. f_equal; lia.
Qed.

(** The down-right diagonal [d] holds the letters of the cells
    [(dn_lo, ...)], [(dn_lo + 1, ...)], ... of the line
    [col - row = d - (rows - 1)]. *)
Lemma diag_down_right_view (d : Z) (v : str) :
  at_index (diag_down_right g) d = Some v →
  0 ≤ d < len txt + width txt - 1 ∧
  len v = dn_hi (len txt) (width txt) d - dn_lo (len txt) (width txt) d ∧
  ∀ i, 0 ≤ i < len v →
    at_index v i =
    cell txt (dn_lo (len txt) (width txt) d + i)
             (d - (len txt - 1) + (dn_lo (len txt) (width txt) d + i)).
Proof using Hwf Hg.
  rewrite post_init_well_formed in Hg by done. injection Hg as <-.
  cbn [diag_down_right]. intros Hv.
  apply at_index_buckets in Hv as [Hd ->]; [|lia].
  pose proof (well_formed_size txt Hwf) as [Hrc Hcc].
  destruct (picked txt (λ r, 0 - r + len txt - 1) d
              (dn_lo (len txt) (width txt) d) (dn_hi (len txt) (width txt) d)
              Hwf)
    as [Hlen Hat]; unfold dn_lo, dn_hi in *; [lia|lia|lia| |].
  - intros r Hr. lia.
  - split; [done|]. split; [done|].
    intros i Hi. cbn beta in Hat. rewrite Hat by lia. f_equal; lia.
Qed.

End views.

(** * Construction: which inputs are accepted *)

(** C1, as stated, fails: rows of unequal length are accepted when no row is
    longer than the first, and an empty sequence of rows raises
    [IndexError], which is not [MalformedGridError]. *)
Lemma post_init_ragged_accepted :
  ragged [s "AB"; s "A"] ∧
  (∃ g, post_init [s "AB"; s "A"] = inr g) ∧
  post_init [] = inl IndexError ∧
  post_init [] ≠ inl MalformedGridError.
Proof.
  split; [|split; [|split]].
  - apply Exists_cons_tl, Exists_cons_hd. vm_compute. discriminate.
  - eexists. vm_compute. reflexivity.
  - reflexivity.
  - discriminate.
Qed.

(** C1, amended: construction validates nothing itself.  It raises
    [IndexError] on an empty sequence of rows and when some row is longer
    than the first; it succeeds, returning a grid over the given rows, on
    every non-empty sequence in which no row is longer than the first, so in
    particular on every non-empty sequence of rows of equal length. *)
Theorem post_init_outcome (txt : list str) :
  (txt = [] → post_init txt = inl IndexError) ∧
  (Exists (λ line, width txt < len line) txt →
   post_init txt = inl IndexError) ∧
  (txt ≠ [] → Forall (λ line, len line ≤ width txt) txt →
   ∃ g, post_init txt = inr g ∧ text g = txt) ∧
  (well_formed txt → ∃ g, post_init txt = inr g ∧ text g = txt).
Proof.
  split; [|split; [|split]].
  - intros ->. apply post_init_empty.
  - apply post_init_too_long.
  - intros Hne Hall. rewrite post_init_ok by done. eauto.
  - intros Hwf. rewrite post_init_well_formed by done. eauto.
Qed.

Lemma post_init_outcome_witness :
  (∃ g, post_init [s "AB"; s "CD"] = inr g ∧ text g = [s "AB"; s "CD"]) ∧
  post_init [s "A"; s "AB"] = inl IndexError.
Proof.
  split.
  - apply (post_init_outcome [s "AB"; s "CD"]).
    split; [discriminate|]. repeat constructor.
  - apply (post_init_outcome [s "A"; s "AB"]).
    apply Exists_cons_tl, Exists_cons_hd. vm_compute. reflexivity.
Defined.

(** * The per-line search *)

(** C2, as stated, fails: for the word AB in the line BA the reversed line
    holds the word at offset [0], and the search returns index [1], not
    [2 - 1 - 0 - (2 - 1) = 0]. *)
Lemma find_in_group_backward_offset_cex :
  let word := s "AB" in
  let line := s "BA" in
  let k := 0 in
  ¬ occurs word line ∧
  occurs word (reversed line) ∧
  find (reversed line) word = k ∧
  find_in_group word line = Some (1, false) ∧
  find_in_group word line ≠
    Some (len line - 1 - k - (len word - 1), false).
Proof.
  cbv zeta. rewrite <- !str_in_occurs. repeat split.
  - vm_compute. discriminate.
  - vm_compute. discriminate.
Qed.

(** C2, amended: when the word does not occur in the line but occurs in the
    reversed line, first at offset [k], the search returns a backward match
    whose index is [lineLength - 1 - k]: the position of the first letter of
    the word, which is read from there towards the start of the line.
    [lineLength - 1 - k - (wordLength - 1)] is the position of its last
    letter. *)
Theorem find_in_group_backward_index (word line : str) :
  ¬ occurs word line →
  occurs word (reversed line) →
  let k := find (reversed line) word in
  find_in_group word line = Some (len line - 1 - k, false) ∧
  reads (reversed line) k 1 word ∧
  (∀ k', 0 ≤ k' < k → ¬ reads (reversed line) k' 1 word) ∧
  reads line (len line - 1 - k) (-1) word ∧
  0 ≤ len line - 1 - k - (len word - 1).
Proof.
  rewrite <- !str_in_occurs. intros Hfwd%not_true_is_false Hbwd k.
  pose proof (find_in_group_backward word line Hfwd Hbwd) as Hres.
  fold k in Hres. split; [done|].
  destruct (find_in_group_false _ _ _ Hres) as (_ & _ & _ & Hk & Hr & _).
  pose proof (find_in_group_forward word (reversed line) Hbwd) as Hrev.
  fold k in Hrev.
  destruct (find_in_group_true _ _ _ Hrev) as (_ & _ & Hr' & Hmin).
  repeat split; try done; lia.
Qed.

Lemma find_in_group_backward_index_witness :
  find_in_group (s "BATHROOM") (s "RRXIEWFUFPURLWLMOORHTABS")
  = Some (24 - 1 - 1, false).
Proof.
  apply (find_in_group_backward_index
           (s "BATHROOM") (s "RRXIEWFUFPURLWLMOORHTABS")).
  - intros H%str_in_occurs. vm_compute in H. discriminate.
  - apply str_in_occurs. vm_compute. reflexivity.
Defined.

(** C10: when the word does not occur forward in the line but is spelled
    backward in it, the search returns [len(line) - 1 - k], with [k] the
    first offset of the word in the reversed line, and no backward
    occurrence starts at a larger index. *)
Theorem find_in_group_rightmost_backward (word line : str) :
  ¬ occurs word line →
  occurs word (reversed line) →
  ∃ idx,
    find_in_group word line = Some (idx, false) ∧
    idx = len line - 1 - find (reversed line) word ∧
    reads line idx (-1) word ∧
    ∀ start, reads line start (-1) word → start ≤ idx.
Proof.
  rewrite <- !str_in_occurs. intros Hfwd%not_true_is_false Hbwd.
  pose proof (find_in_group_backward word line Hfwd Hbwd) as Hres.
  eexists. split; [done|].
  destruct (find_in_group_false _ _ _ Hres) as (_ & _ & _ & _ & Hr & Hmax).
  done.
Qed.

Lemma find_in_group_rightmost_backward_witness :
  ∃ idx,
    find_in_group (s "AB") (s "BAXBA") = Some (idx, false) ∧
    idx = 5 - 1 - 0 ∧
    reads (s "BAXBA") idx (-1) (s "AB") ∧
    ∀ start, reads (s "BAXBA") start (-1) (s "AB") → start ≤ idx.
Proof.
  apply (find_in_group_rightmost_backward (s "AB") (s "BAXBA")).
  - intros H%str_in_occurs. vm_compute in H. discriminate.
  - apply str_in_occurs. vm_compute. reflexivity.
Defined.

(** * The coordinate back-transforms *)

(** C3: in a well-formed grid, the letter at offset [i] of the diagonal view
    [d] is the letter of the cell given by the back-transform: for the
    up-right family [(d - i, i)] when [d < rows] and
    [(rows - i - 1, (d - rows) + i + 1)] otherwise; for the down-right
    family [(rows - d + i - 1, i)] when [d < rows] and
    [(i, d - rows + i + 1)] otherwise. *)
Theorem diagonal_back_transform (txt : list str) (g : Grid) (d i : Z) :
  well_formed txt → post_init txt = inr g →
  let rows := len (text g) in
  (∀ v x, at_index (diag_up_right g) d = Some v → at_index v i = Some x →
     let loc := if d <? rows
                then mkLocation (d - i) i
                else mkLocation (rows - i - 1) ((d - rows) + i + 1) in
     up_right_cell rows d i = loc ∧
     grid_at (text g) (row loc) (column loc) = inr x) ∧
  (∀ v x, at_index (diag_down_right g) d = Some v → at_index v i = Some x →
     let loc := if d <? rows
                then mkLocation (rows - d + i - 1) i
                else mkLocation i (d - rows + i + 1) in
     down_right_cell rows d i = loc ∧
     grid_at (text g) (row loc) (column loc) = inr x).
Proof.
  intros Hwf Hg rows. unfold rows. rewrite (text_view txt g Hwf Hg).
  split; intros v x Hv Hx; cbv zeta; (split; [done|]);
    pose proof (at_index_Some _ _ _ Hx) as Hi; apply grid_at_cell.
  - destruct (diag_up_right_view txt g Hwf Hg d v Hv) as (Hd & Hlen & Hat).
    rewrite <- Hx, Hat by done. unfold up_hi.
    destruct (Z.ltb_spec d (len txt)); cbn [row column]; f_equal; lia.
  - destruct (diag_down_right_view txt g Hwf Hg d v Hv) as (Hd & Hlen & Hat).
    rewrite <- Hx, Hat by done. unfold dn_lo.
    destruct (Z.ltb_spec d (len txt)); cbn [row column]; f_equal; lia.
Qed.

(** * The locator as one scan *)

Lemma first_hit_app (rows : Z) (word : str) (l k : list (Family * Z * str)) :
  first_hit rows word (l ++ k) =
  match first_hit rows word l with
  | Some m => Some m
  | None => first_hit rows word k
  end.
Proof.
  induction l as [|c l IH]; simpl; [done|].
  by destruct (hit rows word c).
Qed.

Lemma scan_first_hit (g : Grid) (word color : str) (rows : Z) (fam : Family)
    (body : Z → str → option (result found)) (l : list (Z * str)) :
  (∀ d v, body d v =
          (λ m, report g word color m.1 m.2) <$> hit rows word (fam, d, v)) →
  scan body l =
  (λ m, report g word color m.1 m.2) <$> first_hit rows word (tagged fam l).
Proof.
  intros Hbody. induction l as [|[d v] l IH]; [done|].
  cbn [scan tagged map first_hit fst snd]. fold (tagged fam l).
  rewrite Hbody, IH. by destruct (hit rows word (fam, d, v)).
Qed.

Lemma row_body_hit (g : Grid) (word color : str) (rows d : Z) (v : str) :
  row_body g word color d v =
  (λ m, report g word color m.1 m.2) <$> hit rows word (Row, d, v).
Proof.
  unfold row_body, hit. destruct (find_in_group word v) as [[i []]|]; done.
Qed.

Lemma col_body_hit (g : Grid) (word color : str) (rows d : Z) (v : str) :
  col_body g word color d v =
  (λ m, report g word color m.1 m.2) <$> hit rows word (Column, d, v).
Proof.
  unfold col_body, hit. destruct (find_in_group word v) as [[i []]|]; done.
Qed.

Lemma up_right_body_hit (g : Grid) (word color : str) (rows d : Z) (v : str) :
  up_right_body g word color rows d v =
  (λ m, report g word color m.1 m.2) <$> hit rows word (UpRight, d, v).
Proof.
  unfold up_right_body, hit.
  destruct (find_in_group word v) as [[i []]|]; done.
Qed.

Lemma down_right_body_hit (g : Grid) (word color : str) (rows d : Z)
    (v : str) :
  down_right_body g word color rows d v =
  (λ m, report g word color m.1 m.2) <$> hit rows word (DownRight, d, v).
Proof.
  unfold down_right_body, hit.
  destruct (find_in_group word v) as [[i []]|]; done.
Qed.

(** [find_word] reports the match of the first view, in scan order, that
    has one, and returns [None] when no view has one. *)
Lemma find_word_first_hit (g : Grid) (word color : str) :
  find_word g word color =
  match first_hit (len (text g)) word (scan_order g) with
  | Some (start, direction) => report g word color start direction
  | None => ret (None, g)
  end.
Proof.
  unfold find_word, scan_order.
  rewrite (scan_first_hit g word color (len (text g)) Row)
    by apply row_body_hit.
  rewrite (scan_first_hit g word color (len (text g)) Column)
    by apply col_body_hit.
  rewrite (scan_first_hit g word color (len (text g)) UpRight)
    by apply up_right_body_hit.
  rewrite (scan_first_hit g word color (len (text g)) DownRight)
    by apply down_right_body_hit.
  rewrite !first_hit_app.
  destruct (first_hit _ _ (tagged Row _)) as [[? ?]|]; [done|].
  destruct (first_hit _ _ (tagged Column _)) as [[? ?]|]; [done|].
  destruct (first_hit _ _ (tagged UpRight _)) as [[? ?]|]; [done|].
  destruct (first_hit _ _ (tagged DownRight _)) as [[? ?]|]; done.
Qed.

(** The first view with a match decides the result. *)
Lemma first_hit_Some (rows : Z) (word : str) (l : list (Family * Z * str))
    (m : Location * Direction) :
  first_hit rows word l = Some m ↔
  ∃ (k : nat) c, l !! k = Some c ∧ hit rows word c = Some m ∧
    ∀ (k' : nat) c', (k' < k)%nat → l !! k' = Some c' →
      hit rows word c' = None.
Proof.
  induction l as [|c l IH]; simpl.
  - split; [done|]. by intros (k & c & Hk & _).
  - destruct (hit rows word c) as [m'|] eqn:E.
    + split.
      * intros [= <-]. exists 0%nat, c. repeat split; [done|]. intros; lia.
      * intros ([|k] & c' & Hk & Hhit & Hmin).
        -- simpl in Hk. congruence.
        -- specialize (Hmin 0%nat c ltac:(lia) eq_refl). congruence.
    + rewrite IH. split.
      * intros (k & c' & Hk & Hhit & Hmin). exists (S k), c'.
        repeat split; [done|done|]. intros [|k'] c'' Hlt Hk'.
        -- simpl in Hk'. congruence.
        -- eapply (Hmin k'); [lia|done].
      * intros ([|k] & c' & Hk & Hhit & Hmin).
        -- simpl in Hk. congruence.
        -- exists k, c'. repeat split; [done|done|].
           intros k' c'' Hlt Hk'. apply (Hmin (S k')); [lia|done].
Qed.

Lemma first_hit_None (rows : Z) (word : str) (l : list (Family * Z * str)) :
  first_hit rows word l = None ↔ ∀ c, c ∈ l → hit rows word c = None.
Proof.
  induction l as [|c l IH]; simpl.
  - split; [|done]. intros _ c Hc. by apply elem_of_nil in Hc.
  - destruct (hit rows word c) as [m'|] eqn:E.
    + split; [done|]. intros H. rewrite H in E; [done|].
      apply elem_of_cons. by left.
    + rewrite IH. split.
      * intros H c' [->|Hc']%elem_of_cons; [done|by apply H].
      * intros H c' Hc'. apply H. apply elem_of_cons. by right.
Qed.

(** * Highlighting *)

Lemma cell_update {A} (hl : list (list A)) (r c : Z) (hrow : list A) (v : A) :
  at_index hl r = Some hrow → 0 ≤ c < len hrow →
  ∀ r' c',
    cell (<[Z.to_nat r := <[Z.to_nat c := v]> hrow]> hl) r' c' =
    if (r =? r') && (c =? c') then Some v else cell hl r' c'.
Proof.
  intros Hrow Hc r' c'. pose proof (at_index_Some _ _ _ Hrow) as Hr.
  unfold cell, at_index in *. unfold len in *.
  destruct (Z.ltb_spec r 0); [lia|].
  destruct (Z.ltb_spec r' 0).
  { destruct (Z.eqb_spec r r'); [lia|done]. }
  destruct (Z.eqb_spec r r') as [<-|Hne]; cbn [andb].
  - rewrite list_lookup_insert_eq by lia. rewrite Hrow.
    destruct (Z.ltb_spec c' 0).
    { destruct (Z.eqb_spec c c'); [lia|done]. }
    destruct (Z.eqb_spec c c') as [<-|Hne].
    + rewrite list_lookup_insert_eq by lia. done.
    + rewrite list_lookup_insert_ne by lia. done.
  - rewrite list_lookup_insert_ne by lia. done.
Qed.

Lemma overlay_shape_update (rc cc : Z) (hl : list (list str)) (r c : Z)
    (hrow : list str) (v : str) :
  overlay_shape rc cc hl → at_index hl r = Some hrow →
  overlay_shape rc cc (<[Z.to_nat r := <[Z.to_nat c := v]> hrow]> hl).
Proof.
  intros [Hlen Hall] Hrow. split.
  - unfold len in *. by rewrite length_insert.
  - apply Forall_insert; [done|]. unfold len. rewrite length_insert.
    unfold at_index in Hrow. destruct (Z.ltb_spec r 0); [done|].
    rewrite Forall_lookup in Hall. by apply (Hall _ _ Hrow).
Qed.

Section highlight.

Variables (txt : list str) (start : Location) (color : str).
Hypothesis Hwf : well_formed txt.

Lemma highlight_step_ok (hl : list (list str)) (row_off col_off ind : Z) :
  let r := row start + ind * row_off in
  let c := column start + ind * col_off in
  overlay_shape (len txt) (width txt) hl →
  0 ≤ r < len txt → 0 ≤ c < width txt →
  ∃ hl', highlight_step txt start row_off col_off color hl ind = inr hl' ∧
    overlay_shape (len txt) (width txt) hl' ∧
    ∀ r' c', cell hl' r' c' =
             if (r =? r') && (c =? c')
             then decorated color <$> cell txt r' c'
             else cell hl r' c'.
Proof using Hwf.
  intros r c Hshape Hr Hc. unfold highlight_step. fold r c.
  destruct (cell_in_bounds txt r c Hwf Hr Hc) as [x Hx].
  unfold cell in Hx. destruct (at_index txt r) as [line|] eqn:Hline; [|done].
  rewrite (getitem_at_index _ _ _ Hline). cbn [bind].
  rewrite (getitem_at_index _ _ _ Hx). cbn [bind].
  destruct Hshape as [Hlen Hall].
  destruct (at_index_is_Some hl r ltac:(lia)) as [hrow Hrow].
  rewrite (getitem_at_index _ _ _ Hrow). cbn [bind].
  assert (len hrow = width txt) as Hw.
  { unfold at_index in Hrow. destruct (Z.ltb_spec r 0); [done|].
    rewrite Forall_lookup in Hall. by apply (Hall _ _ Hrow). }
  rewrite setitem_in_range by lia. cbn [bind].
  rewrite setitem_in_range by lia.
  eexists. split; [done|]. split.
  - by apply overlay_shape_update.
  - intros r' c'. rewrite (cell_update hl r c hrow) by (done || lia).
    destruct (Z.eqb_spec r r') as [<-|]; [|done].
    destruct (Z.eqb_spec c c') as [<-|]; [|done].
    cbn [andb]. unfold cell. rewrite Hline, Hx. done.
Qed.

Lemma highlight_loop (direction : Direction) (inds : list Z) :
  ∀ hl : list (list str),
    overlay_shape (len txt) (width txt) hl →
    (∀ ind, ind ∈ inds →
       in_bounds (len txt) (width txt) (step_cell start direction ind)) →
    ∃ hl',
      for_each (highlight_step txt start (offsets direction).1
                  (offsets direction).2 color) inds hl = inr hl' ∧
      overlay_shape (len txt) (width txt) hl' ∧
      ∀ r c, cell hl' r c =
             if existsb (λ ind,
                  (row (step_cell start direction ind) =? r) &&
                  (column (step_cell start direction ind) =? c)) inds
             then decorated color <$> cell txt r c
             else cell hl r c.
Proof using Hwf.
  induction inds as [|ind inds IH]; intros hl Hshape Hin.
  - exists hl. repeat split; done || apply Hshape.
  - cbn [for_each existsb].
    destruct (Hin ind ltac:(apply elem_of_cons; by left)) as [Hr Hc].
    destruct (highlight_step_ok hl (offsets direction).1
                (offsets direction).2 ind Hshape Hr Hc)
      as (hl1 & -> & Hshape1 & Hcell1).
    cbn [bind].
    destruct (IH hl1 Hshape1) as (hl' & -> & Hshape' & Hcell').
    { intros ind' Hind'. apply Hin, elem_of_cons. by right. }
    exists hl'. repeat split; [apply Hshape'|apply Hshape'|].
    intros r c. rewrite Hcell', Hcell1. unfold step_cell. cbn [row column].
    destruct (existsb _ inds); [by rewrite orb_true_r|].
    by rewrite orb_false_r.
Qed.

End highlight.

Lemma elem_of_range (n ind : Z) : ind ∈ range n ↔ 0 ≤ ind < n.
Proof. unfold range. rewrite elem_of_seqZ. lia. Qed.

(** [highlight] succeeds when every stepped cell is in the grid, and then
    rewrites the overlay at the stepped cells and nowhere else. *)
Lemma highlight_ok (g : Grid) (start : Location) (direction : Direction)
    (length : Z) (color : str) :
  valid_grid g →
  (∀ ind, 0 ≤ ind < length →
     in_bounds (len (text g)) (width (text g))
               (step_cell start direction ind)) →
  ∃ hl',
    highlight g start direction length color = inr (with_highlighted g hl') ∧
    overlay_shape (len (text g)) (width (text g)) hl' ∧
    ∀ r c, cell hl' r c =
           if stepped start direction length r c
           then decorated color <$> cell (text g) r c
           else cell (highlighted g) r c.
Proof.
  intros (Hwf & _ & Hshape) Hin.
  destruct (highlight_loop (text g) start color Hwf direction (range length)
              (highlighted g) Hshape) as (hl' & Hrun & Hshape' & Hcell).
  { intros ind Hind. by apply Hin, elem_of_range. }
  exists hl'. split; [|done].
  unfold highlight. destruct (offsets direction) as [ro co].
  cbn [fst snd] in Hrun. by rewrite Hrun.
Qed.

(** * Where the letters of a view lie in the grid *)

Lemma locate_forward (rows : Z) (fam : Family) (d i k : Z) :
  step_cell (locate rows fam d i) (forward_direction fam) k =
  locate rows fam d (i + k).
Proof.
  destruct fam; unfold step_cell, locate, up_right_cell, down_right_cell;
    cbn [forward_direction offsets fst snd];
    try destruct (d <? rows); cbn [row column]; f_equal; lia.
Qed.

Lemma locate_backward (rows : Z) (fam : Family) (d i k : Z) :
  step_cell (locate rows fam d i) (backward_direction fam) k =
  locate rows fam d (i - k).
Proof.
  destruct fam; unfold step_cell, locate, up_right_cell, down_right_cell;
    cbn [backward_direction offsets fst snd];
    try destruct (d <? rows); cbn [row column]; f_equal; lia.
Qed.

Lemma step_cell_0 (start : Location) (direction : Direction) :
  step_cell start direction 0 = start.
Proof.
  destruct start. unfold step_cell. cbn [row column]. f_equal; lia.
Qed.

Lemma step_cell_inj (start : Location) (direction : Direction) (i j : Z) :
  step_cell start direction i = step_cell start direction j → i = j.
Proof.
  unfold step_cell. destruct direction; cbn [offsets fst snd];
    intros [= H1 H2]; lia.
Qed.

(** The letter at offset [i] of the view [d] of a family is the letter of
    the cell [locate rows fam d i], which is a cell of the grid. *)
Lemma views_cells (g : Grid) (fam : Family) (d i : Z) (v : str) :
  valid_grid g →
  at_index (views g fam) d = Some v → 0 ≤ i < len v →
  let loc := locate (len (text g)) fam d i in
  in_bounds (len (text g)) (width (text g)) loc ∧
  cell (text g) (row loc) (column loc) = at_index v i.
Proof.
  intros (Hwf & (g0 & Hg0 & Hc & Hu & Hd) & _) Hv Hi loc.
  assert (cell (text g) (row loc) (column loc) = at_index v i) as Hcell.
  { unfold loc. destruct fam; cbn [views locate] in *.
    - cbn [row column]. unfold cell. by rewrite Hv.
    - rewrite Hc in Hv.
      destruct (columns_view _ _ Hwf Hg0 d v Hv) as [Hlen Hat].
      cbn [row column]. symmetry. apply Hat. lia.
    - rewrite Hu in Hv.
      destruct (diag_up_right_view _ _ Hwf Hg0 d v Hv) as (Hd' & Hlen & Hat).
      rewrite Hat by done. unfold up_right_cell, up_hi.
      destruct (Z.ltb_spec d (len (text g))); cbn [row column]; f_equal; lia.
    - rewrite Hd in Hv.
      destruct (diag_down_right_view _ _ Hwf Hg0 d v Hv)
        as (Hd' & Hlen & Hat).
      rewrite Hat by done. unfold down_right_cell, dn_lo.
      destruct (Z.ltb_spec d (len (text g))); cbn [row column]; f_equal; lia. }
  split; [|done].
  destruct (at_index_is_Some v i Hi) as [x Hx]. rewrite Hx in Hcell.
  by apply (cell_Some _ _ _ x Hwf).
Qed.

Lemma elem_of_enumerate {A} (l : list A) (d : Z) (v : A) :
  (d, v) ∈ enumerate l ↔ at_index l d = Some v.
Proof.
  unfold enumerate. rewrite list_elem_of_lookup. split.
  - intros [k Hk]. rewrite enumerate_from_lookup in Hk.
    destruct (l !! k) as [x|] eqn:E; [|done]. injection Hk as <- <-.
    rewrite Z.add_0_l, at_index_nat. done.
  - intros Hv. pose proof (at_index_Some _ _ _ Hv) as Hd.
    exists (Z.to_nat d). rewrite enumerate_from_lookup.
    unfold at_index in Hv. destruct (Z.ltb_spec d 0); [lia|].
    rewrite Hv. simpl. do 2 f_equal. lia.
Qed.

Lemma elem_of_tagged (fam fam' : Family) (l : list (Z * str)) d v :
  (fam', d, v) ∈ tagged fam l ↔ fam' = fam ∧ (d, v) ∈ l.
Proof.
  unfold tagged. rewrite list_elem_of_fmap. split.
  - intros ([d' v'] & [= -> -> ->] & Hin). done.
  - intros [-> Hin]. by exists (d, v).
Qed.

(** The scan order lists every view of every family, under its index. *)
Lemma elem_of_scan_order (g : Grid) (fam : Family) (d : Z) (v : str) :
  (fam, d, v) ∈ scan_order g ↔ at_index (views g fam) d = Some v.
Proof.
  unfold scan_order. rewrite !elem_of_app, !elem_of_tagged.
  rewrite !elem_of_enumerate.
  destruct fam; cbn [views]; intuition (done || discriminate).
Qed.

(** The cells of a match are cells of the grid. *)
Lemma hit_in_bounds (g : Grid) (word : str) (fam : Family) (d : Z) (v : str)
    (start : Location) (direction : Direction) :
  valid_grid g →
  at_index (views g fam) d = Some v →
  hit (len (text g)) word (fam, d, v) = Some (start, direction) →
  ∀ ind, 0 ≤ ind < len word →
    in_bounds (len (text g)) (width (text g))
              (step_cell start direction ind).
Proof.
  intros Hg Hv Hhit ind Hind. unfold hit in Hhit.
  destruct (find_in_group word v) as [[k fwd]|] eqn:E; [|done].
  injection Hhit as <- <-. destruct fwd.
  - apply find_in_group_true in E as (Hk & Hend & _).
    rewrite locate_forward. apply (views_cells g fam d _ v Hg Hv). lia.
  - apply find_in_group_false in E as (_ & _ & _ & Hk & _).
    rewrite locate_backward. apply (views_cells g fam d _ v Hg Hv). lia.
Qed.

Lemma first_hit_in_bounds (g : Grid) (word : str) (start : Location)
    (direction : Direction) :
  valid_grid g →
  first_hit (len (text g)) word (scan_order g) = Some (start, direction) →
  ∀ ind, 0 ≤ ind < len word →
    in_bounds (len (text g)) (width (text g))
              (step_cell start direction ind).
Proof.
  intros Hg (k & [[fam d] v] & Hk & Hhit & _)%first_hit_Some.
  apply list_elem_of_lookup_2, elem_of_scan_order in Hk.
  by eapply hit_in_bounds.
Qed.

(** On a valid grid [find_word] never raises: it returns the first match,
    having highlighted its cells, or [None] with the grid untouched. *)
Lemma find_word_ok (g : Grid) (word color : str) :
  valid_grid g →
  match first_hit (len (text g)) word (scan_order g) with
  | Some (start, direction) =>
      ∃ hl',
        find_word g word color =
          inr (Some (start, direction), with_highlighted g hl') ∧
        overlay_shape (len (text g)) (width (text g)) hl' ∧
        ∀ r c, cell hl' r c =
               if stepped start direction (len word) r c
               then decorated color <$> cell (text g) r c
               else cell (highlighted g) r c
  | None => find_word g word color = inr (None, g)
  end.
Proof.
  intros Hg. rewrite find_word_first_hit.
  destruct (first_hit _ _ _) as [[start direction]|] eqn:E; [|done].
  destruct (highlight_ok g start direction (len word) color Hg)
    as (hl' & Hrun & Hshape & Hcell).
  { by apply first_hit_in_bounds. }
  exists hl'. split; [|done]. unfold report. by rewrite Hrun.
Qed.

Lemma valid_with_highlighted (g : Grid) (hl : list (list str)) :
  valid_grid g →
  overlay_shape (len (text g)) (width (text g)) hl →
  valid_grid (with_highlighted g hl).
Proof. intros (Hwf & Hviews & _) Hshape. done. Qed.

(** Validity is kept by [find_word], so it holds of a grid throughout its
    use. *)
Lemma find_word_valid (g g' : Grid) (word color : str)
    (res : option (Location * Direction)) :
  valid_grid g → find_word g word color = inr (res, g') → valid_grid g'.
Proof.
  intros Hg Hrun. pose proof (find_word_ok g word color Hg) as Hok.
  destruct (first_hit _ _ _) as [[start direction]|].
  - destruct Hok as (hl' & Hrun' & Hshape & _).
    rewrite Hrun in Hrun'. injection Hrun' as _ ->.
    by apply valid_with_highlighted.
  - rewrite Hrun in Hok. by injection Hok as _ ->.
Qed.

Lemma post_init_valid (txt : list str) (g : Grid) :
  well_formed txt → post_init txt = inr g → valid_grid g.
Proof.
  intros Hwf Hg. pose proof (text_view txt g Hwf Hg) as Ht.
  pose proof (highlighted_init txt g Hwf Hg) as Hh.
  unfold valid_grid. rewrite Ht. split; [done|]. split; [by exists g|].
  rewrite Hh. split.
  - unfold len. by rewrite length_map.
  - apply Forall_fmap. destruct Hwf as [_ Hall].
    eapply Forall_impl; [done|]. intros line Hl. simpl.
    unfold letters, len in *. by rewrite length_map.
Qed.

(** * Concrete grids *)

Lemma abc_well_formed : well_formed abc.
Proof. split; [discriminate|]. repeat constructor. Qed.

Lemma abc_built : post_init abc = inr abc_grid.
Proof. reflexivity. Qed.

Lemma abc_valid : valid_grid abc_grid.
Proof. apply (post_init_valid abc); [apply abc_well_formed|reflexivity]. Qed.

Lemma tie_valid : valid_grid tie_grid.
Proof.
  apply (post_init_valid tie_rows); [|reflexivity].
  split; [discriminate|]. repeat constructor.
Qed.

Lemma blank_valid : valid_grid blank_grid.
Proof.
  apply (post_init_valid [[]]); [|reflexivity].
  split; [discriminate|]. repeat constructor.
Qed.

Lemma diagonal_back_transform_witness :
  grid_at abc 2 1 = inr "H"%char ∧ grid_at abc 1 0 = inr "D"%char.
Proof.
  split.
  - apply (diagonal_back_transform abc abc_grid 3 0
             abc_well_formed abc_built) with (v := s "HF"); reflexivity.
  - apply (diagonal_back_transform abc abc_grid 1 0
             abc_well_formed abc_built) with (v := s "DH"); reflexivity.
Defined.

(** * The locator *)

Lemma stepped_iff (start : Location) (direction : Direction) (n r c : Z) :
  stepped start direction n r c = true ↔
  ∃ ind, 0 ≤ ind < n ∧ step_cell start direction ind = mkLocation r c.
Proof.
  unfold stepped. rewrite existsb_exists. split.
  - intros (ind & Hin & Heq). exists ind.
    apply list_elem_of_In, elem_of_range in Hin. split; [done|].
    apply andb_true_iff in Heq as [H1%Z.eqb_eq H2%Z.eqb_eq].
    destruct (step_cell start direction ind). cbn [row column] in *.
    by subst.
  - intros (ind & Hin & Heq). exists ind. split.
    + by apply list_elem_of_In, elem_of_range.
    + rewrite Heq. cbn [row column]. by rewrite !Z.eqb_refl.
Qed.

Lemma find_empty (line : str) : find line [] = 0.
Proof. by destruct line. Qed.

Lemma first_hit_empty_word (g : Grid) :
  text g ≠ [] →
  first_hit (len (text g)) [] (scan_order g) = Some (mkLocation 0 0, RIGHT).
Proof.
  intros Hne. unfold scan_order, enumerate.
  destruct (text g) as [|line rest]; [done|].
  cbn [enumerate_from tagged map app first_hit hit fst snd].
  unfold find_in_group. by rewrite str_in_empty, find_empty.
Qed.

Lemma highlight_nothing (g : Grid) (start : Location) (direction : Direction)
    (color : str) :
  highlight g start direction 0 color = inr g.
Proof.
  unfold highlight. destruct (offsets direction). by destruct g.
Qed.

(** C9: on a well-formed grid, [find_word] with the empty string returns
    the location (0, 0) with the direction left-to-right, and the grid,
    overlay included, is returned as it was. *)
Theorem find_word_empty_word (g : Grid) (color : str) :
  valid_grid g →
  find_word g [] color = inr (Some (mkLocation 0 0, RIGHT), g).
Proof.
  intros (Hwf & _). rewrite find_word_first_hit.
  rewrite first_hit_empty_word by apply Hwf.
  unfold report. change (len []) with 0. by rewrite highlight_nothing.
Qed.

Lemma find_word_empty_word_witness :
  find_word abc_grid [] (s "red")
  = inr (Some (mkLocation 0 0, RIGHT), abc_grid).
Proof. apply (find_word_empty_word abc_grid (s "red")), abc_valid. Defined.

(** C5, as stated, fails: in the well-formed grid of one row without
    letters, [find_word] with the empty string returns the location (0, 0),
    and column [0] is not below the number of columns, which is [0]. *)
Lemma find_word_start_out_of_bounds :
  well_formed [[]] ∧
  post_init [[]] = inr blank_grid ∧
  valid_grid blank_grid ∧
  find_word blank_grid [] (s "red")
  = inr (Some (mkLocation 0 0, RIGHT), blank_grid) ∧
  ¬ in_bounds (len (text blank_grid)) (width (text blank_grid))
              (mkLocation 0 0).
Proof.
  split; [|split; [|split; [|split]]].
  - split; [discriminate|]. repeat constructor.
  - reflexivity.
  - apply blank_valid.
  - reflexivity.
  - intros [_ [_ Hc]]. vm_compute in Hc. discriminate.
Qed.

(** C5, amended: on a well-formed grid [find_word] never raises; when it
    returns a match, every one of the [wordLength] cells stepped through
    from the start location along the direction is within the grid, so
    highlighting reads and writes no cell out of bounds; and the start
    location is within the grid whenever the word is not empty or the grid
    has at least one column. *)
Theorem find_word_in_bounds (g : Grid) (word color : str) :
  valid_grid g →
  ∃ res g',
    find_word g word color = inr (res, g') ∧
    ∀ start direction, res = Some (start, direction) →
      (∀ ind, 0 ≤ ind < len word →
         in_bounds (len (text g)) (width (text g))
                   (step_cell start direction ind)) ∧
      (word ≠ [] ∨ 0 < width (text g) →
       in_bounds (len (text g)) (width (text g)) start).
Proof.
  intros Hg. pose proof (find_word_ok g word color Hg) as Hok.
  destruct (first_hit _ _ _) as [[start direction]|] eqn:E.
  - destruct Hok as (hl' & Hrun & _).
    exists (Some (start, direction)), (with_highlighted g hl').
    split; [done|]. intros ? ? [= <- <-].
    pose proof (first_hit_in_bounds g word start direction Hg E) as Hin.
    split; [done|]. intros Hor.
    destruct word as [|a word].
    + destruct Hor as [|Hcols]; [done|].
      destruct Hg as (Hwf & _).
      rewrite first_hit_empty_word in E by apply Hwf.
      injection E as <- <-. destruct (well_formed_size _ Hwf).
      split; cbn [row column]; lia.
    + rewrite <- (step_cell_0 start direction). apply Hin.
      rewrite len_cons. pose proof (len_nonneg word). lia.
  - exists None, g. split; [done|]. done.
Qed.

Lemma find_word_in_bounds_witness :
  ∃ res g',
    find_word abc_grid (s "CEG") (s "red") = inr (res, g') ∧
    ∀ start direction, res = Some (start, direction) →
      (∀ ind, 0 ≤ ind < 3 → in_bounds 3 3 (step_cell start direction ind)) ∧
      (s "CEG" ≠ [] ∨ 0 < 3 → in_bounds 3 3 start).
Proof. apply (find_word_in_bounds abc_grid (s "CEG") (s "red")), abc_valid. Defined.

Lemma hit_absent (rows : Z) (word : str) (fam : Family) (d : Z) (v : str) :
  hit rows word (fam, d, v) = None ↔
  ¬ occurs word v ∧ ¬ occurs word (reversed v).
Proof.
  unfold hit. rewrite <- !str_in_occurs.
  destruct (find_in_group word v) as [[k fwd]|] eqn:E.
  - split; [done|]. intros [H1 H2].
    assert (find_in_group word v = None); [|congruence].
    apply find_in_group_absent.
    by destruct (str_in word v), (str_in word (reversed v)).
  - apply find_in_group_absent in E as [-> ->]. done.
Qed.

(** C7: when the word occurs in no view of any of the four families, in
    neither orientation, [find_word] returns [None] without raising and
    hands the grid back as it was, overlay included; so does a second call
    with the same word.  (This holds for the empty word too.) *)
Theorem find_word_not_found (g : Grid) (word color : str) :
  (∀ fam v, v ∈ views g fam →
     ¬ occurs word v ∧ ¬ occurs word (reversed v)) →
  find_word g word color = inr (None, g) ∧
  (r <- find_word g word color ;; find_word r.2 word color) = inr (None, g).
Proof.
  intros Habsent.
  assert (find_word g word color = inr (None, g)) as Hrun.
  { rewrite find_word_first_hit.
    assert (first_hit (len (text g)) word (scan_order g) = None) as ->;
      [|done].
    apply first_hit_None. intros [[fam d] v] Hin.
    apply elem_of_scan_order in Hin. apply hit_absent, (Habsent fam).
    unfold at_index in Hin. destruct (d <? 0); [done|].
    by eapply list_elem_of_lookup_2. }
  split; [done|]. rewrite Hrun. cbn [bind snd]. done.
Qed.

Lemma absent_from_abc (fam : Family) (v : str) :
  v ∈ views abc_grid fam →
  ¬ occurs (s "XYZ") v ∧ ¬ occurs (s "XYZ") (reversed v).
Proof.
  intros Hin. rewrite <- !str_in_occurs.
  destruct fam; cbn [views abc_grid] in Hin;
    repeat (apply elem_of_cons in Hin as [->|Hin];
            [split; vm_compute; discriminate|]);
    by apply elem_of_nil in Hin.
Qed.

Lemma find_word_not_found_witness :
  find_word abc_grid (s "XYZ") (s "red") = inr (None, abc_grid) ∧
  (r <- find_word abc_grid (s "XYZ") (s "red") ;;
   find_word r.2 (s "XYZ") (s "red")) = inr (None, abc_grid).
Proof.
  apply (find_word_not_found abc_grid (s "XYZ") (s "red")).
  exact absent_from_abc.
Defined.

(** C8: after a successful [find_word], the overlay holds the letter
    wrapped in the colour tag at each of the [wordLength] cells stepped
    through from the start location along the direction, these cells are
    distinct, every other overlay cell is as before, and the text, the
    column views and the diagonal views are as before. *)
Theorem find_word_highlights (g g' : Grid) (word color : str)
    (start : Location) (direction : Direction) :
  valid_grid g →
  find_word g word color = inr (Some (start, direction), g') →
  (∀ ind, 0 ≤ ind < len word →
     let p := step_cell start direction ind in
     ∃ letter, cell (text g) (row p) (column p) = Some letter ∧
       cell (highlighted g') (row p) (column p)
       = Some (color ++ [letter] ++ Fore_RESET)) ∧
  (∀ i j, step_cell start direction i = step_cell start direction j →
     i = j) ∧
  (∀ r c,
     (∀ ind, 0 ≤ ind < len word →
        step_cell start direction ind ≠ mkLocation r c) →
     cell (highlighted g') r c = cell (highlighted g) r c) ∧
  text g' = text g ∧ columns g' = columns g ∧
  diag_up_right g' = diag_up_right g ∧
  diag_down_right g' = diag_down_right g.
Proof.
  intros Hg Hrun. pose proof (find_word_ok g word color Hg) as Hok.
  destruct (first_hit _ _ _) as [[start' direction']|] eqn:E;
    [|congruence].
  destruct Hok as (hl' & Hrun' & Hshape & Hcell).
  rewrite Hrun in Hrun'. injection Hrun' as <- <- ->.
  pose proof (first_hit_in_bounds g word start direction Hg E) as Hin.
  split; [|split; [|split]].
  - intros ind Hind p. destruct (Hin ind Hind) as [Hr Hc]. fold p in Hr, Hc.
    destruct (cell_in_bounds (text g) (row p) (column p)) as [x Hx];
      [apply Hg|done|done|].
    exists x. split; [done|]. cbn [highlighted with_highlighted].
    rewrite Hcell, Hx.
    assert (stepped start direction (len word) (row p) (column p) = true)
      as ->; [|done].
    apply stepped_iff. exists ind. split; [done|].
    unfold p. by destruct (step_cell start direction ind).
  - apply step_cell_inj.
  - intros r c Hout. cbn [highlighted with_highlighted]. rewrite Hcell.
    destruct (stepped start direction (len word) r c) eqn:Es; [|done].
    apply stepped_iff in Es as (ind & Hind & Heq). by apply Hout in Heq.
  - done.
Qed.

Lemma find_word_highlights_witness :
  cell (highlighted abc_grid) 1 2 = Some (s "F") ∧
  ∃ g', find_word abc_grid (s "HF") (s "red")
        = inr (Some (mkLocation 2 1, ANGLED_UP_RIGHT), g') ∧
        cell (highlighted g') 1 2 = Some (s "red" ++ s "F" ++ Fore_RESET) ∧
        cell (highlighted g') 0 0 = Some (s "A") ∧
        text g' = abc.
Proof.
  split; [reflexivity|].
  destruct (find_word abc_grid (s "HF") (s "red")) as [e|[res g']] eqn:E;
    [vm_compute in E; discriminate|].
  assert (res = Some (mkLocation 2 1, ANGLED_UP_RIGHT)) as ->
    by (vm_compute in E; congruence).
  exists g'. split; [done|].
  pose proof (find_word_highlights abc_grid g' (s "HF") (s "red")
                (mkLocation 2 1) ANGLED_UP_RIGHT abc_valid E)
    as (Hmark & _ & Hframe & Htext & _).
  split; [|split; [|done]].
  - destruct (Hmark 1 ltac:(vm_compute; split; congruence))
      as (letter & Hl & Hh).
    vm_compute in Hl. injection Hl as <-. exact Hh.
  - rewrite (Hframe 0 0); [reflexivity|].
    intros ind [Hlo Hhi]. vm_compute in Hhi. unfold step_cell.
    cbn [row column offsets fst snd]. intros [= H1 H2]. lia.
Defined.

(** C4: [find_word] returns the match of the first view, in the order row
    views by ascending index, then column views, then up-right diagonals,
    then down-right diagonals, in which the word occurs in either
    orientation; within that view the forward occurrence is returned when
    there is one (the leftmost one), the backward occurrence otherwise (the
    rightmost one).  The returned location is the cell of the view's letter
    at that offset, and the word is spelled in the grid from there in the
    returned direction. *)
Theorem find_word_scan_order (g : Grid) (word color : str) (k : nat)
    (fam : Family) (d : Z) (view : str) :
  valid_grid g →
  scan_order g !! k = Some (fam, d, view) →
  occurs word view ∨ occurs word (reversed view) →
  (∀ (k' : nat) fam' d' view',
     (k' < k)%nat → scan_order g !! k' = Some (fam', d', view') →
     ¬ occurs word view' ∧ ¬ occurs word (reversed view')) →
  ∃ start direction g' index,
    find_word g word color = inr (Some (start, direction), g') ∧
    start = locate (len (text g)) fam d index ∧
    spelled (text g) word start direction ∧
    (occurs word view →
     direction = forward_direction fam ∧
     0 ≤ index ∧ reads view index 1 word ∧
     ∀ i, 0 ≤ i < index → ¬ reads view i 1 word) ∧
    (¬ occurs word view →
     direction = backward_direction fam ∧
     index < len view ∧ reads view index (-1) word ∧
     ∀ i, reads view i (-1) word → i ≤ index).
Proof.
  intros Hg Hk Hocc Hfirst.
  destruct (hit (len (text g)) word (fam, d, view)) as [[start direction]|]
    eqn:Ehit.
  2: { apply hit_absent in Ehit as [H1 H2]. by destruct Hocc. }
  assert (first_hit (len (text g)) word (scan_order g)
          = Some (start, direction)) as E.
  { apply first_hit_Some. exists k, (fam, d, view).
    split; [done|]. split; [done|].
    intros k' [[fam' d'] view'] Hlt Hk'. apply hit_absent. by eapply Hfirst. }
  pose proof (find_word_ok g word color Hg) as Hok. rewrite E in Hok.
  destruct Hok as (hl' & Hrun & _).
  assert (at_index (views g fam) d = Some view) as Hv.
  { by apply elem_of_scan_order, (list_elem_of_lookup_2 _ k). }
  unfold hit in Ehit.
  destruct (find_in_group word view) as [[index fwd]|] eqn:Efind; [|done].
  injection Ehit as <- <-.
  exists (locate (len (text g)) fam d index),
         (if fwd then forward_direction fam else backward_direction fam),
         (with_highlighted g hl'), index.
  split; [done|]. split; [done|]. rewrite <- !str_in_occurs.
  destruct fwd.
  - pose proof Efind as (Hlo & Hhi & Hreads & Hmin)%find_in_group_true.
    assert (str_in word view = true) as Hin.
    { unfold find_in_group in Efind.
      destruct (str_in word view); [done|].
      by destruct (str_in word (reversed view)). }
    split; [|split; [done|by rewrite Hin]].
    intros j Hj. rewrite locate_forward.
    destruct (views_cells g fam d (index + Z.of_nat j) view Hg Hv)
      as [_ ->]; [unfold len in *; lia|].
    rewrite <- (Hreads j Hj). f_equal. lia.
  - pose proof Efind
      as (Hnot & _ & _ & Hrange & Hreads & Hmax)%find_in_group_false.
    split; [|split; [by rewrite Hnot|]].
    + intros j Hj. rewrite locate_backward.
      destruct (views_cells g fam d (index - Z.of_nat j) view Hg Hv)
        as [_ ->]; [unfold len in *; lia|].
      rewrite <- (Hreads j Hj). f_equal. lia.
    + intros _. split; [done|]. split; [lia|]. done.
Qed.

(** The word AB in [tie_grid]: absent from row 0; in row 1 forward from
    column 1 and from column 3, and backward too; and again in a column
    view and in a diagonal view further down the scan order.  The match
    returned is the leftmost forward one of row 1. *)
Lemma find_word_scan_order_witness :
  (occurs (s "AB") (s "XABAB") ∧ occurs (s "AB") (reversed (s "XABAB"))) ∧
  (at_index (columns tie_grid) 3 = Some (s "XAB") ∧
   occurs (s "AB") (s "XAB")) ∧
  (at_index (diag_down_right tie_grid) 2 = Some (s "XAB") ∧
   occurs (s "AB") (s "XAB")) ∧
  (∃ g', find_word tie_grid (s "AB") (s "red")
         = inr (Some (mkLocation 1 1, RIGHT), g')) ∧
  ∃ start direction g' index,
    find_word tie_grid (s "AB") (s "red")
    = inr (Some (start, direction), g') ∧
    start = locate 3 Row 1 index ∧
    spelled (text tie_grid) (s "AB") start direction ∧
    (occurs (s "AB") (s "XABAB") →
     direction = RIGHT ∧
     0 ≤ index ∧ reads (s "XABAB") index 1 (s "AB") ∧
     ∀ i, 0 ≤ i < index → ¬ reads (s "XABAB") i 1 (s "AB")) ∧
    (¬ occurs (s "AB") (s "XABAB") →
     direction = LEFT ∧
     index < 5 ∧ reads (s "XABAB") index (-1) (s "AB") ∧
     ∀ i, reads (s "XABAB") i (-1) (s "AB") → i ≤ index).
Proof.
  split; [split; apply str_in_occurs; reflexivity|].
  split; [split; [reflexivity|apply str_in_occurs; reflexivity]|].
  split; [split; [reflexivity|apply str_in_occurs; reflexivity]|].
  split; [eexists; vm_compute; reflexivity|].
  apply (find_word_scan_order tie_grid (s "AB") (s "red") 1 Row 1
           (s "XABAB") tie_valid).
  - reflexivity.
  - left. apply str_in_occurs. reflexivity.
  - intros k' fam' d' view' Hlt Hk'. rewrite <- !str_in_occurs.
    destruct k' as [|k']; [|lia].
    vm_compute in Hk'. injection Hk' as <- <- <-.
    split; vm_compute; discriminate.
Defined.

(** * The views as rearrangements of the grid *)

Lemma filter_flat_map {A B} (P : B → bool) (f : A → list B) (l : list A) :
  List.filter P (flat_map f l) = flat_map (λ a, List.filter P (f a)) l.
Proof.
  induction l as [|a l IH]; simpl; [done|].
  by rewrite List.filter_app, IH.
Qed.

Lemma map_flat_map {A B C} (h : B → C) (f : A → list B) (l : list A) :
  map h (flat_map f l) = flat_map (λ a, map h (f a)) l.
Proof.
  induction l as [|a l IH]; simpl; [done|].
  by rewrite map_app, IH.
Qed.

(** The letters of the cells of one row whose column is [t]. *)
Lemma row_cells_at (r t : Z) (line : str) :
  ∀ c0, 0 ≤ c0 →
    map (λ p : Z * Z * ascii, p.2)
        (List.filter (λ p : Z * Z * ascii, p.1.2 =? t)
           (map (λ cx : Z * ascii, (r, cx.1, cx.2)) (enumerate_from c0 line)))
    = option_list (at_index line (t - c0)).
Proof.
  induction line as [|x line IH]; intros c0 Hc0.
  - simpl. by rewrite at_index_None by (unfold len; simpl; lia).
  - cbn [enumerate_from map List.filter fst snd].
    destruct (Z.eqb_spec c0 t) as [->|Hne].
    + cbn [map]. rewrite IH by lia. rewrite Z.sub_diag.
      by rewrite at_index_None by lia.
    + rewrite IH by lia. destruct (Z_lt_ge_dec t c0).
      * by rewrite !at_index_None by lia.
      * rewrite (at_index_tail x) by lia. do 2 f_equal. lia.
Qed.

(** The letters of the cells on a line of a family whose line equation is
    [col = d - shift row]: from each row, the letter in that column. *)
Lemma on_line_letters (line_eq : Z → Z → Z) (shift : Z → Z) (d : Z)
    (txt : list str) :
  (∀ r c, line_eq r c = c + shift r) →
  letters_of (on_line line_eq d txt) =
  flat_map (λ rl, option_list (at_index rl.2 (d - shift rl.1)))
           (enumerate_from 0 txt).
Proof.
  intros Heq. unfold letters_of, on_line, grid_cells, enumerate.
  rewrite filter_flat_map, map_flat_map. apply flat_map_ext.
  intros [r line]. cbn [fst snd].
  rewrite <- (Z.sub_0_r (d - shift r)). rewrite <- (row_cells_at r) by lia.
  f_equal. apply List.filter_ext_in.
  intros p ([c' x] & <- & _)%in_map_iff. cbn [fst snd]. rewrite Heq.
  destruct (Z.eqb_spec (c' + shift r) d),
           (Z.eqb_spec c' (d - shift r - 0)); done || lia.
Qed.

Lemma row_cells_all (r d : Z) (line : str) :
  ∀ c0,
    map (λ p : Z * Z * ascii, p.2)
        (List.filter (λ p : Z * Z * ascii, p.1.1 =? d)
           (map (λ cx : Z * ascii, (r, cx.1, cx.2)) (enumerate_from c0 line)))
    = if r =? d then line else [].
Proof.
  induction line as [|x line IH]; intros c0.
  - simpl. by destruct (r =? d).
  - cbn [enumerate_from map List.filter fst snd]. specialize (IH (c0 + 1)).
    destruct (r =? d); [|done]. cbn [map]. by rewrite IH.
Qed.

Lemma rows_pick (d : Z) (txt : list str) :
  ∀ r0, 0 ≤ r0 →
    flat_map (λ rl : Z * str, if rl.1 =? d then rl.2 else [])
             (enumerate_from r0 txt)
    = default [] (at_index txt (d - r0)).
Proof.
  induction txt as [|line txt IH]; intros r0 Hr0.
  - simpl. by rewrite at_index_None by (unfold len; simpl; lia).
  - cbn [enumerate_from flat_map fst snd]. rewrite IH by lia.
    destruct (Z.eqb_spec r0 d) as [->|Hne].
    + rewrite Z.sub_diag, at_index_head.
      rewrite at_index_None by lia. simpl. by rewrite app_nil_r.
    + destruct (Z_lt_ge_dec d r0).
      * by rewrite !at_index_None by lia.
      * rewrite (at_index_tail line) by lia. simpl. do 2 f_equal. lia.
Qed.

Lemma row_line_letters (d : Z) (txt : list str) :
  letters_of (on_line row_line d txt) = default [] (at_index txt d).
Proof.
  unfold letters_of, on_line, grid_cells, enumerate.
  rewrite filter_flat_map, map_flat_map.
  transitivity (flat_map (λ rl : Z * str, if rl.1 =? d then rl.2 else [])
                         (enumerate_from 0 txt)).
  - apply flat_map_ext. intros [r line]. cbn [fst snd].
    apply row_cells_all.
  - rewrite rows_pick by lia. by rewrite Z.sub_0_r.
Qed.

Lemma len_letters_of (cells : list (Z * Z * ascii)) :
  len (letters_of cells) = len cells.
Proof. unfold len, letters_of. by rewrite length_map. Qed.

(** Each view spells the cells of its line, in reading order (the up-right
    diagonals in the opposite order). *)
Lemma view_letters (txt : list str) (g : Grid) (fam : Family) (d : Z)
    (v : str) :
  well_formed txt → post_init txt = inr g →
  at_index (views g fam) d = Some v →
  v = (match fam with UpRight => reversed | _ => id end)
        (letters_of (on_line (line_of (len txt) fam) d txt)).
Proof.
  intros Hwf Hg. rewrite post_init_well_formed in Hg by done.
  injection Hg as <-. destruct fam; cbn [views text columns diag_up_right
    diag_down_right line_of]; intros Hv.
  - rewrite row_line_letters, Hv. done.
  - apply at_index_buckets in Hv as [_ ->]; [|lia].
    rewrite (on_line_letters col_line (λ _, 0)); [done|].
    intros r c. unfold col_line. lia.
  - unfold at_index in Hv. destruct (Z.ltb_spec d 0) as [|Hd]; [done|].
    rewrite list_lookup_fmap in Hv.
    destruct (_ !! Z.to_nat d) as [L|] eqn:HL; [|done].
    injection Hv as <-. f_equal.
    assert (at_index (spread_rows (λ r, r + 0)
              (replicate (Z.to_nat (len txt + width txt - 1)) []) 0 txt) d
            = Some L) as HL'.
    { unfold at_index. by destruct (Z.ltb_spec d 0); [lia|]. }
    apply at_index_buckets in HL' as [_ ->]; [|lia].
    rewrite (on_line_letters up_right_line (λ r, r + 0)); [done|].
    intros r c. unfold up_right_line. lia.
  - apply at_index_buckets in Hv as [_ ->]; [|lia].
    rewrite (on_line_letters (down_right_line (len txt))
               (λ r, 0 - r + len txt - 1)); [done|].
    intros r c. unfold down_right_line. lia.
Qed.

Lemma locate_line_offset (rc : Z) (fam : Family) (r c : Z) :
  locate rc fam (line_of rc fam r c) (offset_of rc fam r c) = mkLocation r c.
Proof.
  destruct fam; cbn [locate line_of offset_of]; [done|done| |].
  - unfold up_right_cell, up_right_line.
    destruct (Z.ltb_spec (r + c) rc); f_equal; lia.
  - unfold down_right_cell, down_right_line.
    destruct (Z.ltb_spec (c - r + rc - 1) rc); f_equal; lia.
Qed.

Lemma locate_inj (rc : Z) (fam : Family) (d i r c : Z) :
  locate rc fam d i = mkLocation r c →
  d = line_of rc fam r c ∧ i = offset_of rc fam r c.
Proof.
  destruct fam; cbn [locate line_of offset_of].
  - by intros [= -> ->].
  - by intros [= -> ->].
  - unfold up_right_cell, up_right_line.
    destruct (Z.ltb_spec d rc); intros [= <- <-];
      match goal with
      | |- context [?x <? rc] => destruct (Z.ltb_spec x rc)
      end; lia.
  - unfold down_right_cell, down_right_line.
    destruct (Z.ltb_spec d rc); intros [= <- <-];
      match goal with
      | |- context [?x <? rc] => destruct (Z.ltb_spec x rc)
      end; lia.
Qed.

(** Every cell of the grid has a position in each family of views. *)
Lemma cell_position (g : Grid) (fam : Family) (r c : Z) :
  valid_grid g →
  0 ≤ r < len (text g) → 0 ≤ c < width (text g) →
  ∃ v, at_index (views g fam) (line_of (len (text g)) fam r c) = Some v ∧
       0 ≤ offset_of (len (text g)) fam r c < len v.
Proof.
  intros (Hwf & (g0 & Hg0 & Hc & Hu & Hd) & _) Hr Hcol.
  destruct fam; cbn [views line_of offset_of].
  - unfold row_line. destruct (at_index_is_Some (text g) r Hr) as [v Hv].
    exists v. split; [done|]. unfold at_index in Hv.
    destruct (Z.ltb_spec r 0); [lia|].
    by rewrite (well_formed_row _ _ _ Hwf Hv).
  - unfold col_line. rewrite Hc.
    destruct (at_index_is_Some (columns g0) c) as [v Hv].
    { by rewrite (columns_count _ _ Hwf Hg0). }
    exists v. split; [done|].
    destruct (columns_view _ _ Hwf Hg0 c v Hv) as [-> _]. done.
  - unfold up_right_line. rewrite Hu.
    destruct (at_index_is_Some (diag_up_right g0) (r + c)) as [v Hv].
    { rewrite (diag_up_right_count _ _ Hwf Hg0). lia. }
    exists v. split; [done|].
    destruct (diag_up_right_view _ _ Hwf Hg0 _ v Hv) as (_ & -> & _).
    unfold up_hi, up_lo. destruct (Z.ltb_spec (r + c) (len (text g))); lia.
  - unfold down_right_line. rewrite Hd.
    destruct (at_index_is_Some (diag_down_right g0)
                (c - r + len (text g) - 1)) as [v Hv].
    { rewrite (diag_down_right_count _ _ Hwf Hg0). lia. }
    exists v. split; [done|].
    destruct (diag_down_right_view _ _ Hwf Hg0 _ v Hv) as (_ & -> & _).
    unfold dn_hi, dn_lo.
    destruct (Z.ltb_spec (c - r + len (text g) - 1) (len (text g))); lia.
Qed.

(** C6: in the grid built from well-formed rows, the row view [r] at [c],
    the column view [c] at [r] and the cell [(r, c)] hold the same letter;
    in each of the four families every position of a view holds the letter
    of a cell of the grid, and every cell of the grid lies at exactly one
    position; and the length of a view is the number of cells of the grid on
    its line. *)
Theorem views_rearrange (txt : list str) (g : Grid) :
  well_formed txt → post_init txt = inr g →
  let rc := len txt in
  let cc := width txt in
  (∀ r c, 0 ≤ r < rc → 0 ≤ c < cc →
     ∃ x, cell txt r c = Some x ∧
          cell (text g) r c = Some x ∧
          cell (columns g) c r = Some x) ∧
  (∀ fam d v i x,
     at_index (views g fam) d = Some v → at_index v i = Some x →
     let loc := locate rc fam d i in
     in_bounds rc cc loc ∧ cell txt (row loc) (column loc) = Some x) ∧
  (∀ fam r c, 0 ≤ r < rc → 0 ≤ c < cc →
     ∃ d i v,
       at_index (views g fam) d = Some v ∧
       0 ≤ i < len v ∧
       at_index v i = cell txt r c ∧
       locate rc fam d i = mkLocation r c ∧
       ∀ d' i', locate rc fam d' i' = mkLocation r c → d' = d ∧ i' = i) ∧
  (∀ fam d v,
     at_index (views g fam) d = Some v →
     len v = len (on_line (line_of rc fam) d txt)).
Proof.
  intros Hwf Hg rc cc.
  pose proof (post_init_valid txt g Hwf Hg) as Hvalid.
  pose proof (text_view txt g Hwf Hg) as Htext.
  split; [|split; [|split]].
  - intros r c Hr Hc.
    destruct (cell_in_bounds txt r c Hwf Hr Hc) as [x Hx].
    exists x. rewrite Htext. split; [done|]. split; [done|].
    destruct (cell_position g Column r c Hvalid) as (v & Hv & Hi);
      [by rewrite Htext|by rewrite Htext|].
    cbn [views line_of offset_of] in Hv, Hi. unfold col_line in Hv.
    unfold cell at 1. rewrite Hv.
    destruct (columns_view txt g Hwf Hg c v Hv) as [_ Hat].
    by rewrite Hat.
  - intros fam d v i x Hv Hx loc.
    destruct (views_cells g fam d i v Hvalid Hv) as [Hin Hcell].
    { by eapply at_index_Some. }
    rewrite Htext in Hin, Hcell. fold rc cc loc in Hin, Hcell.
    split; [done|]. by rewrite Hcell.
  - intros fam r c Hr Hc.
    destruct (cell_position g fam r c Hvalid) as (v & Hv & Hi);
      [by rewrite Htext|by rewrite Htext|].
    rewrite Htext in Hv, Hi. fold rc in Hv, Hi.
    exists (line_of rc fam r c), (offset_of rc fam r c), v.
    split; [done|]. split; [done|].
    pose proof (locate_line_offset rc fam r c) as Hloc.
    split; [|split; [done|]].
    + destruct (views_cells g fam _ _ v Hvalid Hv Hi) as [_ Hcell].
      rewrite Htext in Hcell. fold rc in Hcell. rewrite Hloc in Hcell.
      done.
    + intros d' i'. apply locate_inj.
  - intros fam d v Hv.
    rewrite (view_letters txt g fam d v Hwf Hg Hv).
    destruct fam; cbn [id]; rewrite ?len_reversed; apply len_letters_of.
Qed.

Lemma views_rearrange_witness :
  len (s "GEC") = len (on_line (line_of 3 UpRight) 2 abc) ∧
  ∃ x, cell abc 1 2 = Some x ∧ cell (text abc_grid) 1 2 = Some x ∧
       cell (columns abc_grid) 2 1 = Some x.
Proof.
  destruct (views_rearrange abc abc_grid abc_well_formed abc_built)
    as (Hcells & _ & _ & Hlen).
  split.
  - apply (Hlen UpRight 2). reflexivity.
  - apply (Hcells 1 2); vm_compute; split; congruence.
Defined.

(** * More on the locator *)

Lemma with_highlighted_id (g : Grid) : with_highlighted g (highlighted g) = g.
Proof. by destruct g. Qed.

(** What a call of [find_word] that returns has done. *)
Lemma find_word_inv (g g' : Grid) (word color : str)
    (res : option (Location * Direction)) :
  valid_grid g → find_word g word color = inr (res, g') →
  first_hit (len (text g)) word (scan_order g) = res ∧
  ∃ hl', g' = with_highlighted g hl' ∧
    overlay_shape (len (text g)) (width (text g)) hl' ∧
    ∀ r c, cell hl' r c =
           match res with
           | Some (start, direction) =>
               if stepped start direction (len word) r c
               then decorated color <$> cell (text g) r c
               else cell (highlighted g) r c
           | None => cell (highlighted g) r c
           end.
Proof.
  intros Hg Hrun. pose proof (find_word_ok g word color Hg) as Hok.
  destruct (first_hit _ _ _) as [[start direction]|].
  - destruct Hok as (hl' & Hrun' & Hshape & Hcell).
    rewrite Hrun in Hrun'. injection Hrun' as -> ->.
    split; [done|]. by exists hl'.
  - rewrite Hrun in Hok. injection Hok as -> ->. split; [done|].
    exists (highlighted g). rewrite with_highlighted_id.
    split; [done|]. split; [apply Hg|done].
Qed.

Lemma first_hit_view (g : Grid) (word : str) (m : Location * Direction) :
  first_hit (len (text g)) word (scan_order g) = Some m →
  ∃ fam d v, at_index (views g fam) d = Some v ∧
             hit (len (text g)) word (fam, d, v) = Some m.
Proof.
  intros (k & [[fam d] v] & Hk & Hhit & _)%first_hit_Some.
  apply list_elem_of_lookup_2, elem_of_scan_order in Hk. eauto.
Qed.

(** A match spells the word: the letters of the grid at the cells stepped
    through from the returned location, in the returned direction, are the
    letters of the word, in order. *)
Theorem find_word_spells (g g' : Grid) (word color : str)
    (start : Location) (direction : Direction) :
  valid_grid g →
  find_word g word color = inr (Some (start, direction), g') →
  spelled (text g) word start direction.
Proof.
  intros Hg Hrun.
  destruct (find_word_inv g g' word color _ Hg Hrun) as [Hfirst _].
  apply first_hit_view in Hfirst as (fam & d & v & Hv & Hhit).
  unfold hit in Hhit.
  destruct (find_in_group word v) as [[k fwd]|] eqn:E; [|done].
  injection Hhit as <- <-. intros j Hj.
  assert (0 ≤ Z.of_nat j < len word) as Hj' by (unfold len; lia).
  destruct fwd.
  - apply find_in_group_true in E as (Hk & Hend & Hreads & _).
    rewrite locate_forward.
    destruct (views_cells g fam d (k + Z.of_nat j) v Hg Hv) as [_ ->];
      [lia|].
    rewrite <- (Hreads j Hj). f_equal. lia.
  - apply find_in_group_false in E as (_ & _ & _ & Hk & Hreads & _).
    rewrite locate_backward.
    destruct (views_cells g fam d (k - Z.of_nat j) v Hg Hv) as [_ ->];
      [lia|].
    rewrite <- (Hreads j Hj). f_equal. lia.
Qed.

Lemma find_word_spells_witness :
  ∃ g', find_word abc_grid (s "CEG") (s "red")
        = inr (Some (mkLocation 0 2, ANGLED_DOWN_LEFT), g') ∧
        spelled abc (s "CEG") (mkLocation 0 2) ANGLED_DOWN_LEFT.
Proof.
  destruct (find_word abc_grid (s "CEG") (s "red")) as [e|[res g']] eqn:E;
    [vm_compute in E; discriminate|].
  assert (res = Some (mkLocation 0 2, ANGLED_DOWN_LEFT)) as ->
    by (vm_compute in E; congruence).
  exists g'. split; [done|].
  exact (find_word_spells abc_grid g' (s "CEG") (s "red") _ _ abc_valid E).
Defined.

Lemma direction_of_family (direction : Direction) :
  direction = forward_direction (family_of direction) ∨
  direction = backward_direction (family_of direction).
Proof. destruct direction; cbn; auto. Qed.

Lemma location_eta (loc : Location) :
  loc = mkLocation (row loc) (column loc).
Proof. by destruct loc. Qed.

(** The position, in the views of a family, of a cell that holds a
    letter. *)
Lemma cell_view_offset (g : Grid) (fam : Family) (d i : Z) (v : str)
    (x : ascii) :
  let loc := locate (len (text g)) fam d i in
  valid_grid g →
  at_index (views g fam) d = Some v →
  cell (text g) (row loc) (column loc) = Some x →
  at_index v i = Some x.
Proof.
  intros loc Hg Hv Hx.
  destruct (cell_Some _ _ _ _ (proj1 Hg) Hx) as [Hr Hc].
  destruct (cell_position g fam _ _ Hg Hr Hc) as (v' & Hv' & Hi).
  destruct (locate_inj (len (text g)) fam d i (row loc) (column loc))
    as [Hd Hoff]; [apply location_eta|].
  rewrite <- Hd in Hv'. rewrite <- Hoff in Hi.
  assert (v' = v) as -> by congruence.
  destruct (views_cells g fam d i v Hg Hv Hi) as [_ Hcell].
  fold loc in Hcell. congruence.
Qed.

(** A word spelled in the grid is read, forward or backward, in a view. *)
Lemma spelled_in_view (g : Grid) (word : str) (start : Location)
    (direction : Direction) :
  valid_grid g → word ≠ [] →
  spelled (text g) word start direction →
  ∃ d v, at_index (views g (family_of direction)) d = Some v ∧
         (occurs word v ∨ occurs word (reversed v)).
Proof.
  intros Hg Hne Hsp. set (fam := family_of direction).
  set (rc := len (text g)).
  destruct word as [|a word]; [done|].
  pose proof (Hsp 0%nat ltac:(simpl; lia)) as H0.
  change (Z.of_nat 0) with 0 in H0. rewrite step_cell_0 in H0. simpl in H0.
  destruct (cell_Some _ _ _ _ (proj1 Hg) H0) as [Hr Hc].
  destruct (cell_position g fam _ _ Hg Hr Hc) as (v & Hv & Hi).
  fold rc in Hv, Hi.
  set (d := line_of rc fam (row start) (column start)) in *.
  set (i := offset_of rc fam (row start) (column start)) in *.
  assert (locate rc fam d i = start) as Hloc.
  { unfold d, i. rewrite locate_line_offset. symmetry. apply location_eta. }
  exists d, v. split; [done|]. rewrite <- !str_in_occurs.
  destruct (direction_of_family direction) as [Hdir|Hdir]; fold fam in Hdir.
  - left. apply str_in_true. exists (Z.to_nat i).
    split; [unfold len in Hi; lia|].
    apply startswith_drop_reads. rewrite Z2Nat.id by lia.
    intros j Hj. specialize (Hsp j Hj).
    rewrite Hdir, <- Hloc, locate_forward in Hsp.
    destruct (lookup_lt_is_Some_2 (a :: word) j Hj) as [x Hx].
    rewrite Hx in Hsp |- *.
    rewrite Z.mul_1_r. by apply (cell_view_offset g fam d _ v x Hg Hv).
  - right. apply str_in_true. exists (Z.to_nat (len v - 1 - i)).
    split.
    { unfold reversed. rewrite length_reverse. unfold len in *. lia. }
    apply startswith_drop_reads. rewrite Z2Nat.id by lia.
    apply reads_reversed.
    replace (len v - 1 - (len v - 1 - i)) with i by lia.
    intros j Hj. specialize (Hsp j Hj).
    rewrite Hdir, <- Hloc, locate_backward in Hsp.
    destruct (lookup_lt_is_Some_2 (a :: word) j Hj) as [x Hx].
    rewrite Hx in Hsp |- *.
    replace (i + Z.of_nat j * -1) with (i - Z.of_nat j) by lia.
    by apply (cell_view_offset g fam d _ v x Hg Hv).
Qed.

(** The search is complete: a non-empty word that is spelled somewhere in
    the grid, from any cell in any of the eight directions, is found (not
    necessarily there); so [None] is returned only for a word spelled
    nowhere. *)
Theorem find_word_complete (g : Grid) (word color : str) (start : Location)
    (direction : Direction) :
  valid_grid g → word ≠ [] →
  spelled (text g) word start direction →
  ∃ m g', find_word g word color = inr (Some m, g').
Proof.
  intros Hg Hne Hsp.
  destruct (spelled_in_view g word start direction Hg Hne Hsp)
    as (d & v & Hv & Hocc).
  pose proof (find_word_ok g word color Hg) as Hok.
  destruct (first_hit _ _ _) as [[start' direction']|] eqn:E.
  - destruct Hok as (hl' & Hrun & _). eauto.
  - exfalso. rewrite first_hit_None in E.
    specialize (E (family_of direction, d, v)).
    rewrite elem_of_scan_order in E. apply E in Hv.
    apply hit_absent in Hv as [H1 H2]. by destruct Hocc.
Qed.

Lemma find_word_complete_witness :
  ∃ m g', find_word abc_grid (s "HE") (s "red") = inr (Some m, g').
Proof.
  apply (find_word_complete abc_grid (s "HE") (s "red")
           (mkLocation 2 1) UP abc_valid).
  - discriminate.
  - intros j Hj. simpl in Hj.
    destruct j as [|[|j]]; [reflexivity|reflexivity|lia].
Defined.

Lemma scan_order_with_highlighted (g : Grid) (hl : list (list str)) :
  scan_order (with_highlighted g hl) = scan_order g.
Proof. done. Qed.

(** Highlighting does not change what is found later: after any call of
    [find_word], a lookup returns the match it would have returned
    before that call. *)
Theorem find_word_ignores_overlay (g g1 : Grid) (word1 color1 : str)
    (res1 : option (Location * Direction)) (word color : str) :
  valid_grid g →
  find_word g word1 color1 = inr (res1, g1) →
  ∃ res g' g1',
    find_word g word color = inr (res, g') ∧
    find_word g1 word color = inr (res, g1').
Proof.
  intros Hg Hrun1.
  pose proof (find_word_valid g g1 word1 color1 res1 Hg Hrun1) as Hg1.
  destruct (find_word_inv g g1 word1 color1 res1 Hg Hrun1)
    as (_ & hl1 & -> & _).
  pose proof (find_word_ok g word color Hg) as Hok.
  pose proof (find_word_ok _ word color Hg1) as Hok1.
  rewrite scan_order_with_highlighted in Hok1.
  change (text (with_highlighted g hl1)) with (text g) in Hok1.
  destruct (first_hit _ _ _) as [[start direction]|].
  - destruct Hok as (hl' & Hrun & _). destruct Hok1 as (hl1' & Hrun' & _).
    eauto.
  - eauto.
Qed.

(** The first lookup finds DEF and writes row 1 of the overlay; the
    lookup of AEI, which crosses it at E, returns the same match on the
    grid before and after. *)
Lemma find_word_ignores_overlay_witness :
  ∃ g1,
    find_word abc_grid (s "DEF") (s "blue")
    = inr (Some (mkLocation 1 0, RIGHT), g1) ∧
    cell (highlighted abc_grid) 1 1 = Some (s "E") ∧
    cell (highlighted g1) 1 1 = Some (s "blue" ++ s "E" ++ Fore_RESET) ∧
    ∃ res g' g1',
      res = Some (mkLocation 0 0, ANGLED_DOWN_RIGHT) ∧
      find_word abc_grid (s "AEI") (s "red") = inr (res, g') ∧
      find_word g1 (s "AEI") (s "red") = inr (res, g1').
Proof.
  destruct (find_word abc_grid (s "DEF") (s "blue")) as [e|[res1 g1]] eqn:E;
    [vm_compute in E; discriminate|].
  assert (res1 = Some (mkLocation 1 0, RIGHT)) as ->
    by (vm_compute in E; congruence).
  exists g1. split; [done|]. split; [reflexivity|].
  split; [vm_compute in E; injection E as <-; reflexivity|].
  destruct (find_word_ignores_overlay abc_grid g1 (s "DEF") (s "blue") _
              (s "AEI") (s "red") abc_valid E)
    as (res & g' & g1' & Hrun & Hrun1).
  exists res, g', g1'. split; [|done].
  vm_compute in Hrun. congruence.
Defined.

(** Two overlays of the same shape that agree cell by cell are equal. *)
Lemma overlay_ext (rc cc : Z) (a b : list (list str)) :
  overlay_shape rc cc a → overlay_shape rc cc b →
  (∀ r c, cell a r c = cell b r c) → a = b.
Proof.
  intros [Hla Ha] [Hlb Hb] Hcell. apply list_eq. intros k.
  destruct (a !! k) as [ra|] eqn:Era.
  - pose proof (lookup_lt_Some _ _ _ Era) as Hk.
    destruct (lookup_lt_is_Some_2 b k) as [rb Erb].
    { unfold len in *. lia. }
    rewrite Erb. f_equal. apply list_eq. intros j.
    specialize (Hcell (Z.of_nat k) (Z.of_nat j)). unfold cell in Hcell.
    rewrite !at_index_nat, Era, Erb, !at_index_nat in Hcell. done.
  - symmetry. apply lookup_ge_None. apply lookup_ge_None in Era.
    unfold len in *. lia.
Qed.

(** Looking a word up again, with the same colour, returns the same match
    and leaves the grid as the first lookup left it. *)
Theorem find_word_again (g g1 : Grid) (word color : str)
    (res : option (Location * Direction)) :
  valid_grid g →
  find_word g word color = inr (res, g1) →
  find_word g1 word color = inr (res, g1).
Proof.
  intros Hg Hrun.
  pose proof (find_word_valid g g1 word color res Hg Hrun) as Hg1.
  destruct (find_word_inv g g1 word color res Hg Hrun)
    as (Hfirst & hl1 & -> & Hshape1 & Hcell1).
  pose proof (find_word_ok _ word color Hg1) as Hok.
  rewrite scan_order_with_highlighted in Hok.
  change (text (with_highlighted g hl1)) with (text g) in Hok.
  rewrite Hfirst in Hok. destruct res as [[start direction]|]; [|done].
  destruct Hok as (hl2 & -> & Hshape2 & Hcell2).
  do 2 f_equal. unfold with_highlighted. cbn [text columns diag_up_right
    diag_down_right]. f_equal.
  apply (overlay_ext _ _ _ _ Hshape2 Hshape1). intros r c.
  rewrite Hcell2. cbn [highlighted with_highlighted].
  destruct (stepped start direction (len word) r c) eqn:Es; [|done].
  by rewrite Hcell1, Es.
Qed.

Lemma find_word_again_witness :
  ∃ res g1,
    find_word abc_grid (s "AEI") (s "red") = inr (res, g1) ∧
    find_word g1 (s "AEI") (s "red") = inr (res, g1).
Proof.
  destruct (find_word abc_grid (s "AEI") (s "red")) as [e|[res g1]] eqn:E;
    [vm_compute in E; discriminate|].
  exists res, g1. split; [done|].
  exact (find_word_again abc_grid g1 (s "AEI") (s "red") res abc_valid E).
Defined.

Lemma reversed_involutive {A} (l : list A) : reversed (reversed l) = l.
Proof. apply reverse_involutive. Qed.

Lemma occurs_reversed (w row : str) :
  occurs (reversed w) row ↔ occurs w (reversed row).
Proof.
  unfold occurs, reversed. split.
  - intros (pre & post & ->). exists (reverse post), (reverse pre).
    by rewrite !reverse_app, reverse_involutive, <- app_assoc.
  - intros (pre & post & H). exists (reverse post), (reverse pre).
    rewrite <- (reverse_involutive row), H.
    by rewrite !reverse_app, <- app_assoc.
Qed.

Lemma find_word_None (g : Grid) (word color : str) :
  find_word g word color = inr (None, g) ↔
  first_hit (len (text g)) word (scan_order g) = None.
Proof.
  rewrite find_word_first_hit.
  destruct (first_hit _ _ _) as [[start direction]|]; [|done].
  split; [|done]. unfold report.
  by destruct (highlight g start direction (len word) color).
Qed.

(** A word is missed exactly when its mirror image is: [find_word] returns
    [None] for a word if and only if it returns [None] for the word
    written backwards. *)
Theorem find_word_mirror (g : Grid) (word color : str) :
  find_word g word color = inr (None, g) ↔
  find_word g (reversed word) color = inr (None, g).
Proof.
  rewrite !find_word_None, !first_hit_None.
  assert (∀ w c, hit (len (text g)) (reversed w) c = None →
                 hit (len (text g)) w c = None) as Hhalf.
  { intros w [[fam d] v]. rewrite !hit_absent.
    rewrite !occurs_reversed, reversed_involutive. tauto. }
  split; intros H c Hc.
  - apply Hhalf. rewrite reversed_involutive. by apply H.
  - apply Hhalf. by apply H.
Qed.

(** * More on the per-line search *)

(** [find_in_group] returns [None] exactly when the word occurs in the line
    in neither orientation. *)
Theorem find_in_group_None (word line : str) :
  find_in_group word line = None ↔
  ¬ occurs word line ∧ ¬ occurs word (reversed line).
Proof.
  rewrite find_in_group_absent, <- !str_in_occurs.
  by destruct (str_in word line), (str_in word (reversed line)); intuition.
Qed.

(** A word that occurs in the line gets a forward match at the leftmost
    position where it is spelled left to right, whether or not it also
    occurs backward. *)
Theorem find_in_group_leftmost (word line : str) :
  occurs word line →
  ∃ k, find_in_group word line = Some (k, true) ∧
       0 ≤ k ∧ k + len word ≤ len line ∧
       reads line k 1 word ∧
       ∀ k', 0 ≤ k' < k → ¬ reads line k' 1 word.
Proof.
  intros Hocc%str_in_occurs.
  pose proof (find_in_group_forward word line Hocc) as Hres.
  exists (find line word). split; [done|].
  by apply find_in_group_true.
Qed.

Lemma find_in_group_leftmost_witness :
  ∃ k, find_in_group (s "AB") (s "XABAB") = Some (k, true) ∧
       0 ≤ k ∧ k + 2 ≤ 5 ∧
       reads (s "XABAB") k 1 (s "AB") ∧
       ∀ k', 0 ≤ k' < k → ¬ reads (s "XABAB") k' 1 (s "AB").
Proof.
  apply (find_in_group_leftmost (s "AB") (s "XABAB")).
  apply str_in_occurs. reflexivity.
Defined.

(** * The loop over the words *)

Lemma find_word_match (g : Grid) (word color : str)
    (res : option (Location * Direction)) :
  valid_grid g →
  (∃ g', find_word g word color = inr (res, g')) ↔
  first_hit (len (text g)) word (scan_order g) = res.
Proof.
  intros Hg. pose proof (find_word_ok g word color Hg) as Hok. split.
  - intros [g' Hrun]. by destruct (find_word_inv g g' word color res Hg Hrun).
  - intros <-. destruct (first_hit _ _ _) as [[start direction]|].
    + destruct Hok as (hl' & Hrun & _). eauto.
    + eauto.
Qed.

Lemma find_words_first_hits (picks : list (str * str)) :
  ∀ g, valid_grid g →
    ∃ hl',
      find_words g picks =
        inr (map (λ p, first_hit (len (text g)) p.1 (scan_order g)) picks,
             with_highlighted g hl') ∧
      overlay_shape (len (text g)) (width (text g)) hl'.
Proof.
  induction picks as [|[word color] picks IH]; intros g Hg.
  - exists (highlighted g). rewrite with_highlighted_id.
    split; [done|apply Hg].
  - cbn [find_words map fst].
    destruct (proj2 (find_word_match g word color _ Hg) eq_refl)
      as [g1 Hrun].
    pose proof (find_word_valid g g1 word color _ Hg Hrun) as Hg1.
    destruct (find_word_inv g g1 word color _ Hg Hrun)
      as (_ & hl1 & -> & _).
    rewrite Hrun. cbn [bind snd fst].
    destruct (IH _ Hg1) as (hl' & -> & Hshape).
    exists hl'. split; [|done]. done.
Qed.

(** On a grid built from well-formed rows, the loop of [main] over the
    words never raises, whatever the words and the colours; it leaves the
    text and the views as they were, reports one result per word, and the
    result reported for a word is the one a lookup of that word alone on the
    grid would return: the order of the words does not matter for what is
    found. *)
Theorem find_words_results (g : Grid) (picks : list (str * str)) :
  valid_grid g →
  ∃ results g',
    find_words g picks = inr (results, g') ∧
    valid_grid g' ∧
    text g' = text g ∧ columns g' = columns g ∧
    diag_up_right g' = diag_up_right g ∧
    diag_down_right g' = diag_down_right g ∧
    Forall2 (λ p res, ∃ g'', find_word g p.1 p.2 = inr (res, g''))
            picks results.
Proof.
  intros Hg. destruct (find_words_first_hits picks g Hg) as (hl' & -> & Hs).
  eexists _, _. split; [done|].
  split; [by apply valid_with_highlighted|].
  do 4 (split; [done|]).
  apply Forall2_fmap_r, Forall_Forall2_diag, Forall_forall.
  intros [word color] _. by apply find_word_match.
Qed.

Lemma find_words_results_witness :
  ∃ results g',
    find_words abc_grid [(s "CEG", s "red"); (s "XY", s "blue")]
    = inr (results, g') ∧
    valid_grid g' ∧
    text g' = abc ∧ columns g' = columns abc_grid ∧
    diag_up_right g' = diag_up_right abc_grid ∧
    diag_down_right g' = diag_down_right abc_grid ∧
    Forall2 (λ p res, ∃ g'', find_word abc_grid p.1 p.2 = inr (res, g''))
            [(s "CEG", s "red"); (s "XY", s "blue")] results.
Proof.
  apply (find_words_results abc_grid
           [(s "CEG", s "red"); (s "XY", s "blue")] abc_valid).
Defined.

Lemma cell_letters (txt : list str) (r c : Z) :
  cell (map letters txt) r c = (λ x, [x]) <$> cell txt r c.
Proof.
  unfold cell, at_index. destruct (r <? 0); [done|].
  rewrite list_lookup_fmap. destruct (txt !! Z.to_nat r) as [line|]; [|done].
  simpl. destruct (c <? 0); [done|]. unfold letters.
  by rewrite list_lookup_fmap.
Qed.

Lemma shows_fresh (txt : list str) (g : Grid) (colors : list str) :
  well_formed txt → post_init txt = inr g → shows colors g.
Proof.
  intros Hwf Hg r c x Hx. left.
  rewrite (highlighted_init txt g Hwf Hg), cell_letters.
  rewrite (text_view txt g Hwf Hg) in Hx. by rewrite Hx.
Qed.

Lemma shows_find_word (g g' : Grid) (word color : str) (colors : list str)
    (res : option (Location * Direction)) :
  valid_grid g → shows colors g →
  find_word g word color = inr (res, g') →
  shows (color :: colors) g'.
Proof.
  intros Hg Hshows Hrun.
  destruct (find_word_inv g g' word color res Hg Hrun)
    as (_ & hl' & -> & _ & Hcell).
  intros r c x Hx. cbn [text highlighted with_highlighted] in *.
  rewrite Hcell.
  assert (cell (highlighted g) r c = Some [x] ∨
          ∃ color0, color0 ∈ color :: colors ∧
                    cell (highlighted g) r c = Some (decorated color0 x))
    as Hold.
  { destruct (Hshows r c x Hx) as [|(c0 & Hc0 & Hd)]; [by left|right].
    exists c0. split; [|done]. apply elem_of_cons. by right. }
  destruct res as [[start direction]|]; [|done].
  destruct (stepped start direction (len word) r c); [|done].
  right. exists color. split; [apply elem_of_cons; by left|].
  by rewrite Hx.
Qed.

Lemma shows_more (colors colors' : list str) (g : Grid) :
  (∀ c, c ∈ colors → c ∈ colors') → shows colors g → shows colors' g.
Proof.
  intros Hsub Hshows r c x Hx.
  destruct (Hshows r c x Hx) as [|(c0 & Hc0 & Hd)]; [by left|right].
  exists c0. split; [by apply Hsub|done].
Qed.

Lemma shows_find_words (picks : list (str * str)) :
  ∀ (g g' : Grid) (colors : list str) results,
    valid_grid g → shows colors g →
    find_words g picks = inr (results, g') →
    shows (colors ++ map snd picks) g'.
Proof.
  induction picks as [|[word color] picks IH];
    intros g g' colors results Hg Hshows Hrun.
  - injection Hrun as _ <-. simpl. by rewrite app_nil_r.
  - cbn [find_words] in Hrun.
    destruct (find_word g word color) as [e|[res g1]] eqn:E; [done|].
    cbn [bind snd fst] in Hrun.
    destruct (find_words g1 picks) as [e|[results' g2]] eqn:E'; [done|].
    injection Hrun as _ <-.
    pose proof (find_word_valid g g1 word color res Hg E) as Hg1.
    pose proof (shows_find_word g g1 word color colors res Hg Hshows E)
      as Hshows1.
    apply (shows_more ((color :: colors) ++ map snd picks)).
    + intros c. cbn [map snd]. rewrite !elem_of_app, !elem_of_cons.
      tauto.
    + by eapply IH.
Qed.

(** After the loop of [main] over the words, on a grid just built from
    well-formed rows, every cell of the overlay holds the letter of the
    grid at that cell, either bare or wrapped in one of the colours that
    were drawn and the reset code: highlighting never changes, moves or
    loses a letter. *)
Theorem find_words_overlay (txt : list str) (g0 g : Grid)
    (picks : list (str * str))
    (results : list (option (Location * Direction))) :
  well_formed txt → post_init txt = inr g0 →
  find_words g0 picks = inr (results, g) →
  ∀ r c x, cell txt r c = Some x →
    cell (highlighted g) r c = Some [x] ∨
    ∃ color, color ∈ map snd picks ∧
             cell (highlighted g) r c = Some (color ++ [x] ++ Fore_RESET).
Proof.
  intros Hwf Hg0 Hrun r c x Hx.
  pose proof (post_init_valid txt g0 Hwf Hg0) as Hvalid.
  pose proof (shows_find_words picks g0 g [] results Hvalid
                (shows_fresh txt g0 [] Hwf Hg0) Hrun) as Hshows.
  destruct (find_words_first_hits picks g0 Hvalid) as (hl' & Hrun' & _).
  rewrite Hrun in Hrun'. injection Hrun' as _ ->.
  apply Hshows. cbn [text with_highlighted].
  by rewrite (text_view txt g0 Hwf Hg0).
Qed.

Lemma find_words_overlay_witness :
  ∃ results g,
    find_words abc_grid [(s "CEG", s "red"); (s "EG", s "blue")]
    = inr (results, g) ∧
    (cell (highlighted g) 1 1 = Some [ascii_of_nat 69] ∨
     ∃ color, color ∈ [s "red"; s "blue"] ∧
       cell (highlighted g) 1 1
       = Some (color ++ [ascii_of_nat 69] ++ Fore_RESET)).
Proof.
  destruct (find_words abc_grid [(s "CEG", s "red"); (s "EG", s "blue")])
    as [e|[results g]] eqn:E; [vm_compute in E; discriminate|].
  exists results, g. split; [done|].
  apply (find_words_overlay abc abc_grid g
           [(s "CEG", s "red"); (s "EG", s "blue")] results
           abc_well_formed abc_built E 1 1).
  reflexivity.
Defined.

(** * Text in and out *)

Lemma list_ind_pairs {A} (P : list A → Prop) :
  P [] → (∀ x, P [x]) →
  (∀ x y l, P l → P (y :: l) → P (x :: y :: l)) →
  ∀ l, P l.
Proof.
  intros Hnil Hone Hstep l.
  assert (P l ∧ ∀ x, P (x :: l)) as [H _]; [|done].
  induction l as [|y l [IH1 IH2]]; [by split|].
  split; [apply IH2|]. intros x. by apply Hstep.
Qed.

(** A construction that succeeds keeps the rows and copies their letters
    into the overlay. *)
Lemma post_init_success (txt : list str) (g : Grid) :
  post_init txt = inr g →
  txt ≠ [] ∧ Forall (λ line, len line ≤ width txt) txt ∧
  text g = txt ∧ highlighted g = map letters txt.
Proof.
  intros Hg.
  assert (txt ≠ []) as Hne.
  { intros ->. by rewrite post_init_empty in Hg. }
  assert (Forall (λ line, len line ≤ width txt) txt) as Hall.
  { apply Forall_forall. intros line Hin.
    destruct (Z_le_gt_dec (len line) (width txt)) as [|Hgt]; [done|].
    rewrite post_init_too_long in Hg; [done|].
    apply Exists_exists. exists line. split; [done|lia]. }
  rewrite post_init_ok in Hg by done. by injection Hg as <-.
Qed.

(** The overlay of a grid just built renders as the grid itself:
    [colored()] returns what [str()] returns. *)
Theorem colored_fresh (txt : list str) (g : Grid) :
  post_init txt = inr g → colored g = __str__ g.
Proof.
  intros (_ & _ & Ht & Hh)%post_init_success.
  unfold colored, __str__. rewrite Ht, Hh. f_equal.
  rewrite map_map. done.
Qed.

Lemma colored_fresh_witness : colored abc_grid = __str__ abc_grid.
Proof. apply (colored_fresh abc abc_grid). reflexivity. Defined.

Lemma elem_of_replace (old : ascii) (t : str) (c : ascii) :
  c ∈ replace old [] t ↔ c ∈ t ∧ c ≠ old.
Proof.
  unfold replace. induction t as [|a t IH]; simpl.
  - rewrite elem_of_nil. tauto.
  - destruct (Ascii.eqb_spec a old) as [->|Hne]; simpl.
    + rewrite IH, elem_of_cons. split; [tauto|].
      intros [[->|Hin] Hc]; [done|tauto].
    + rewrite !elem_of_cons, IH. split.
      * intros [->|[Hin Hc]]; [auto|auto].
      * intros [[->|Hin] Hc]; [auto|auto].
Qed.

Lemma replace_app (old : ascii) (new a b : str) :
  replace old new (a ++ b) = replace old new a ++ replace old new b.
Proof. unfold replace. apply flat_map_app. Qed.

Lemma replace_clean (old : ascii) (new t : str) :
  (∀ c, c ∈ t → c ≠ old) → replace old new t = t.
Proof.
  unfold replace. induction t as [|a t IH]; intros Hclean; simpl; [done|].
  destruct (Ascii.eqb_spec a old) as [->|Hne].
  - exfalso. by apply (Hclean old); [apply elem_of_cons; left|].
  - simpl. rewrite IH; [done|]. intros c Hc. apply Hclean.
    apply elem_of_cons. by right.
Qed.

(** Every line that [splitlines] returns is made of characters of the text
    that are no line breaks. *)
Lemma splitlines_from_lines (P : ascii → Prop) (t : str) :
  ∀ cur : str,
    (∀ c, c ∈ cur → P c) →
    (∀ c, c ∈ t → is_linebreak c = false → P c) →
    ∀ line, line ∈ splitlines_from cur t → ∀ c, c ∈ line → P c.
Proof.
  induction t as [|x|x y t IH1 IH2] using list_ind_pairs;
    intros cur Hcur Ht line Hline c Hc.
  - simpl in Hline. destruct cur; [by apply elem_of_nil in Hline|].
    apply list_elem_of_singleton in Hline as ->. by apply Hcur.
  - simpl in Hline. destruct (is_linebreak x) eqn:Ex.
    + apply list_elem_of_singleton in Hline as ->. by apply Hcur.
    + assert (line = cur ++ [x]) as ->.
      { destruct (cur ++ [x]) eqn:E; [by destruct cur|].
        by apply list_elem_of_singleton in Hline. }
      apply elem_of_app in Hc as [Hc|Hc]; [by apply Hcur|].
      apply list_elem_of_singleton in Hc as ->.
      apply Ht; [apply elem_of_cons; by left|done].
  - cbn [splitlines_from] in Hline. destruct (is_linebreak x) eqn:Ex.
    + assert (line = cur ∨ line ∈ splitlines_from [] t ∨
              line ∈ splitlines_from [] (y :: t)) as Hcases.
      { destruct (_ && _); apply elem_of_cons in Hline; tauto. }
      destruct Hcases as [->|[Hin|Hin]]; [by apply Hcur| |].
      * apply (IH1 [] ltac:(intros ? []%elem_of_nil)) with (line := line);
          [|done|done].
        intros c' Hc'. apply Ht. by do 2 (apply elem_of_cons; right).
      * apply (IH2 [] ltac:(intros ? []%elem_of_nil)) with (line := line);
          [|done|done].
        intros c' Hc'. apply Ht. by apply elem_of_cons; right.
    + apply (IH2 (cur ++ [x])) with (line := line); [| |done|done].
      * intros c' [Hc'|Hc']%elem_of_app; [by apply Hcur|].
        apply list_elem_of_singleton in Hc' as ->.
        apply Ht; [apply elem_of_cons; by left|done].
      * intros c' Hc'. apply Ht. by apply elem_of_cons; right.
Qed.

(** The rows of a grid made by [from_str] hold no space and no line
    break. *)
Theorem from_str_rows (t : str) (g : Grid) :
  from_str t = inr g →
  ∀ line, line ∈ text g →
    ∀ c, c ∈ line → c ≠ space ∧ is_linebreak c = false ∧ c ∈ t.
Proof.
  unfold from_str. intros (_ & _ & -> & _)%post_init_success line Hline.
  apply (splitlines_from_lines
           (λ c, c ≠ space ∧ is_linebreak c = false ∧ c ∈ t)
           (replace space [] t) []); [|  |done].
  - intros c []%elem_of_nil.
  - intros c [Hc Hne]%elem_of_replace Hbr. done.
Qed.

(** [from_str] of a text without any character other than spaces, the
    empty text included, raises [IndexError]. *)
Theorem from_str_blank (t : str) :
  (∀ c, c ∈ t → c = space) → from_str t = inl IndexError.
Proof.
  intros Hblank. unfold from_str.
  assert (replace space [] t = []) as ->; [|done].
  destruct (replace space [] t) as [|c r] eqn:E; [done|].
  assert (c ∈ replace space [] t) as [Hc Hne]%elem_of_replace
    by (rewrite E; apply elem_of_cons; by left).
  by apply Hblank in Hc.
Qed.

Lemma from_str_blank_witness : from_str (s "   ") = inl IndexError.
Proof.
  apply (from_str_blank (s "   ")). intros c Hc.
  repeat (apply elem_of_cons in Hc as [->|Hc]; [reflexivity|]).
  by apply elem_of_nil in Hc.
Defined.

Lemma from_str_rows_witness :
  ∃ g, from_str (s "A B") = inr g ∧
       ∀ line, line ∈ text g →
         ∀ c, c ∈ line → c ≠ space ∧ is_linebreak c = false ∧ c ∈ s "A B".
Proof.
  destruct (from_str (s "A B")) as [e|g] eqn:E; [vm_compute in E; done|].
  exists g. split; [done|]. exact (from_str_rows (s "A B") g E).
Defined.

Lemma join_cons (sep p : str) (q : str) (rest : list str) :
  join sep (p :: q :: rest) = p ++ sep ++ join sep (q :: rest).
Proof. done. Qed.

Lemma join_letters_clean (row : str) :
  (∀ c, c ∈ row → c ≠ space) →
  replace space [] (join [space] (letters row)) = row.
Proof.
  induction row as [|x|x y row _ IH] using list_ind_pairs; intros Hclean.
  - done.
  - cbn [letters map join]. apply replace_clean. intros c Hc.
    by apply Hclean.
  - cbn [letters map]. rewrite join_cons, !replace_app.
    fold (letters (y :: row)) in *|-*.
    change (map (λ x0 : ascii, [x0]) row) with (letters row).
    change ([y] :: letters row) with (letters (y :: row)).
    rewrite IH.
    + rewrite (replace_clean space [] [x]).
      * done.
      * intros c ->%list_elem_of_singleton. apply Hclean.
        apply elem_of_cons. by left.
    + intros c Hc. apply Hclean. apply elem_of_cons. by right.
Qed.

Lemma replace_join_newline (parts : list str) :
  replace space [] (join [newline] parts) =
  join [newline] (map (replace space []) parts).
Proof.
  induction parts as [|p|p q parts _ IH] using list_ind_pairs.
  - done.
  - done.
  - cbn [map]. rewrite !join_cons, !replace_app. cbn [map] in IH.
    by rewrite IH.
Qed.

Lemma splitlines_from_clean (row t cur : str) :
  (∀ c, c ∈ row → is_linebreak c = false) →
  splitlines_from cur (row ++ t) = splitlines_from (cur ++ row) t.
Proof.
  revert cur. induction row as [|x row IH]; intros cur Hclean.
  - by rewrite app_nil_r.
  - cbn [app splitlines_from].
    rewrite (Hclean x) by (apply elem_of_cons; by left).
    rewrite IH.
    + by rewrite <- app_assoc.
    + intros c Hc. apply Hclean. apply elem_of_cons. by right.
Qed.

Lemma splitlines_from_newline (cur t : str) :
  splitlines_from cur (newline :: t) = cur :: splitlines_from [] t.
Proof. by destruct t. Qed.

Lemma splitlines_join (rows : list str) :
  (∀ line, line ∈ rows → ∀ c, c ∈ line → is_linebreak c = false) →
  last rows ≠ Some [] →
  splitlines (join [newline] rows) = rows.
Proof.
  unfold splitlines.
  induction rows as [|p|p q rows _ IH] using list_ind_pairs;
    intros Hclean Hlast.
  - done.
  - cbn [join]. rewrite <- (app_nil_r p) at 1.
    rewrite splitlines_from_clean.
    + simpl. destruct p; [done|done].
    + apply Hclean. apply elem_of_cons. by left.
  - rewrite join_cons, splitlines_from_clean.
    + cbn [app]. rewrite splitlines_from_newline. f_equal. apply IH.
      * intros line Hline. apply Hclean. apply elem_of_cons. by right.
      * done.
    + apply Hclean. apply elem_of_cons. by left.
Qed.

(** Reading back what [str()] prints rebuilds the grid: when the rows hold
    no space and no line break and the last row is not empty, [from_str] of
    the printed grid does what the constructor does on the rows. *)
Theorem from_str_of_str (g : Grid) :
  (∀ line, line ∈ text g →
     ∀ c, c ∈ line → c ≠ space ∧ is_linebreak c = false) →
  last (text g) ≠ Some [] →
  from_str (__str__ g) = post_init (text g).
Proof.
  intros Hclean Hlast. unfold from_str, __str__. f_equal.
  rewrite replace_join_newline, map_map.
  rewrite (map_ext_in _ id), map_id.
  - apply splitlines_join; [|done]. intros line Hline c Hc.
    by apply (Hclean line).
  - intros line Hline%list_elem_of_In. apply join_letters_clean.
    intros c Hc. by apply (Hclean line).
Qed.

Lemma from_str_of_str_witness : from_str (__str__ abc_grid) = inr abc_grid.
Proof.
  apply (from_str_of_str abc_grid).
  - intros line Hline c Hc. cbn [text abc_grid] in Hline.
    repeat (apply elem_of_cons in Hline as [->|Hline];
            [repeat (apply elem_of_cons in Hc as [->|Hc];
                     [split; [discriminate|reflexivity]|]);
             by apply elem_of_nil in Hc|]).
    by apply elem_of_nil in Hline.
  - discriminate.
Defined.

(** ** The word list *)

Lemma re_split_spaces_clean (t : str) :
  ∀ (cur : str) (b : bool),
    (∀ c, c ∈ cur → isspace c = false) →
    ∀ w, w ∈ re_split_spaces cur b t → ∀ c, c ∈ w → isspace c = false.
Proof.
  induction t as [|x t IH]; intros cur b Hcur w Hw c Hc.
  - apply list_elem_of_singleton in Hw as ->. by apply Hcur.
  - cbn [re_split_spaces] in Hw. destruct (isspace x) eqn:Ex.
    + assert (w = cur ∨ w ∈ re_split_spaces [] true t) as [->|Hin].
      { destruct b; [by right|]. apply elem_of_cons in Hw. tauto. }
      * by apply Hcur.
      * apply (IH [] true) with (w := w); [|done|done].
        intros ? []%elem_of_nil.
    + apply (IH (cur ++ [x]) false) with (w := w); [|done|done].
      intros c' [Hc'|Hc']%elem_of_app; [by apply Hcur|].
      by apply list_elem_of_singleton in Hc' as ->.
Qed.

(** No word returned by [get_words] holds a whitespace character. *)
Theorem get_words_no_space (t : str) (w : str) (c : ascii) :
  w ∈ get_words t → c ∈ w → isspace c = false.
Proof.
  intros Hw Hc.
  apply (re_split_spaces_clean (strip t) [] false) with (w := w);
    [|done|done].
  intros ? []%elem_of_nil.
Qed.

Lemma get_words_no_space_witness :
  isspace (ascii_of_nat 66) = false.
Proof.
  apply (get_words_no_space (s " AB  C ") (s "AB") (ascii_of_nat 66)).
  - vm_compute. apply elem_of_cons. by left.
  - vm_compute. apply elem_of_cons. right. apply elem_of_cons. by left.
Defined.

Lemma re_split_spaces_concat (t : str) :
  ∀ (cur : str) (b : bool),
    (b = true → cur = []) →
    concat (re_split_spaces cur b t) = cur ++ List.filter nonspace t.
Proof.
  induction t as [|x t IH]; intros cur b Hb.
  - simpl. by rewrite app_nil_r.
  - cbn [re_split_spaces List.filter]. unfold nonspace at 1.
    destruct (isspace x); cbn [negb].
    + destruct b.
      * rewrite IH by done. by rewrite Hb.
      * cbn [concat]. by rewrite IH.
    + rewrite IH by done. by rewrite <- app_assoc.
Qed.

Lemma filter_lstrip (t : str) :
  List.filter nonspace (lstrip t) = List.filter nonspace t.
Proof.
  induction t as [|x t IH]; [done|]. cbn [lstrip List.filter].
  unfold nonspace at 2. destruct (isspace x) eqn:Ex; cbn [negb]; [done|].
  cbn [List.filter]. unfold nonspace at 1. by rewrite Ex.
Qed.

Lemma filter_reversed {A} (f : A → bool) (l : list A) :
  List.filter f (reversed l) = reversed (List.filter f l).
Proof.
  unfold reversed. induction l as [|x l IH]; [done|].
  rewrite reverse_cons, List.filter_app, IH. cbn [List.filter].
  destruct (f x); [by rewrite reverse_cons|by rewrite app_nil_r].
Qed.

Lemma filter_strip (t : str) :
  List.filter nonspace (strip t) = List.filter nonspace t.
Proof.
  unfold strip, rstrip.
  rewrite filter_reversed, filter_lstrip, filter_reversed.
  by rewrite reversed_involutive, filter_lstrip.
Qed.

(** The words keep every character of the text that is no whitespace, in
    order, and nothing else: put end to end they are the text without its
    whitespace. *)
Theorem get_words_concat (t : str) :
  concat (get_words t) = List.filter nonspace t.
Proof.
  unfold get_words. rewrite re_split_spaces_concat by done.
  apply filter_strip.
Qed.

Lemma lstrip_starts_clean (t : str) : starts_clean (lstrip t).
Proof.
  induction t as [|x t IH]; [by intros c r|].
  cbn [lstrip]. destruct (isspace x) eqn:Ex; [done|].
  by intros c r [= <- <-].
Qed.

Lemma rstrip_ends_clean (t : str) : ends_clean (rstrip t).
Proof.
  intros pre c Heq. unfold rstrip in Heq.
  apply (f_equal reversed) in Heq. rewrite reversed_involutive in Heq.
  unfold reversed at 2 in Heq. rewrite reverse_app in Heq.
  apply (lstrip_starts_clean (reversed t) c (reverse pre)). done.
Qed.

Lemma lstrip_suffix (t : str) : ∃ pre, t = pre ++ lstrip t.
Proof.
  induction t as [|x t [pre IH]]; [by exists []|].
  cbn [lstrip]. destruct (isspace x); [|by exists []].
  exists (x :: pre). simpl. by rewrite <- IH.
Qed.

Lemma rstrip_prefix (t : str) : ∃ suf, t = rstrip t ++ suf.
Proof.
  destruct (lstrip_suffix (reversed t)) as [pre Hpre].
  exists (reversed pre). unfold rstrip.
  transitivity (reversed (pre ++ lstrip (reversed t))).
  - by rewrite <- Hpre, reversed_involutive.
  - unfold reversed. by rewrite reverse_app.
Qed.

Lemma strip_clean (t : str) : starts_clean (strip t) ∧ ends_clean (strip t).
Proof.
  split; [|apply rstrip_ends_clean].
  intros c r Heq. unfold strip in Heq.
  destruct (rstrip_prefix (lstrip t)) as [suf Hsuf].
  rewrite Heq in Hsuf. by apply (lstrip_starts_clean t c (r ++ suf)).
Qed.

Lemma ends_clean_tail (x : ascii) (t : str) :
  ends_clean (x :: t) → ends_clean t.
Proof. intros H pre c ->. by apply (H (x :: pre) c). Qed.

Lemma ends_clean_space (x : ascii) (t : str) :
  ends_clean (x :: t) → isspace x = true → t ≠ [].
Proof.
  intros H Hx ->. specialize (H [] x eq_refl). congruence.
Qed.

Lemma re_split_spaces_nonempty (t : str) :
  ∀ (cur : str) (b : bool),
    ends_clean t →
    (cur ≠ [] ∧ b = false) ∨ (b = true ∧ t ≠ []) ∨
    (b = false ∧ t ≠ [] ∧ starts_clean t) →
    ∀ w, w ∈ re_split_spaces cur b t → w ≠ [].
Proof.
  induction t as [|x t IH]; intros cur b Hend Hstate w Hw.
  - apply list_elem_of_singleton in Hw as ->.
    destruct Hstate as [[? _]|[[_ ?]|(_ & ? & _)]]; done.
  - cbn [re_split_spaces] in Hw. pose proof (ends_clean_tail _ _ Hend).
    destruct (isspace x) eqn:Ex.
    + pose proof (ends_clean_space _ _ Hend Ex) as Hne.
      destruct b.
      * apply (IH [] true); [done|auto|done].
      * apply elem_of_cons in Hw as [->|Hw].
        -- destruct Hstate as [[? _]|[[? _]|(_ & _ & Hst)]]; [done|done|].
           specialize (Hst x t eq_refl). congruence.
        -- apply (IH [] true); [done|auto|done].
    + apply (IH (cur ++ [x]) false); [done| |done].
      left. split; [by destruct cur|done].
Qed.

(** A text of whitespace only, the empty text included, gives one word,
    the empty one (not an empty list of words); every other text gives
    words none of which is empty. *)
Theorem get_words_empty_word (t : str) :
  ((∀ c, c ∈ t → isspace c = true) → get_words t = [[]]) ∧
  ((∃ c, c ∈ t ∧ isspace c = false) → ∀ w, w ∈ get_words t → w ≠ []).
Proof.
  split.
  - intros Hblank. unfold get_words.
    assert (strip t = []) as ->; [|done].
    destruct (strip t) as [|c r] eqn:E; [done|].
    assert (c ∈ List.filter nonspace t) as Hc.
    { rewrite <- filter_strip, E. cbn [List.filter]. unfold nonspace at 1.
      rewrite (proj1 (strip_clean t) c r E). apply elem_of_cons. by left. }
    apply list_elem_of_In, filter_In in Hc as [Hc Hns].
    apply list_elem_of_In, Hblank in Hc. unfold nonspace in Hns.
    by rewrite Hc in Hns.
  - intros (c & Hc & Hns). unfold get_words.
    assert (strip t ≠ []) as Hne.
    { intros E. assert (c ∈ List.filter nonspace (strip t)) as Hin.
      { rewrite filter_strip. apply list_elem_of_In, filter_In.
        split; [by apply list_elem_of_In|]. unfold nonspace. by rewrite Hns. }
      rewrite E in Hin. by apply elem_of_nil in Hin. }
    apply re_split_spaces_nonempty; [apply strip_clean|].
    right. right. split; [done|]. split; [done|apply strip_clean].
Qed.

Lemma get_words_empty_word_witness :
  get_words (s "   ") = [[]] ∧
  ∀ w, w ∈ get_words (s " AB  C ") → w ≠ [].
Proof.
  split.
  - apply (get_words_empty_word (s "   ")). intros c Hc.
    repeat (apply elem_of_cons in Hc as [->|Hc]; [reflexivity|]).
    by apply elem_of_nil in Hc.
  - apply (get_words_empty_word (s " AB  C ")).
    exists (ascii_of_nat 65). split; [|reflexivity].
    vm_compute. apply elem_of_cons. right. apply elem_of_cons. by left.
Defined.

Lemma re_split_spaces_letters (w : str) :
  ∀ (cur t : str),
    (∀ c, c ∈ w → isspace c = false) →
    re_split_spaces cur false (w ++ t) = re_split_spaces (cur ++ w) false t.
Proof.
  induction w as [|x w IH]; intros cur t Hclean.
  - by rewrite app_nil_r.
  - cbn [app re_split_spaces].
    rewrite (Hclean x) by (apply elem_of_cons; by left).
    rewrite IH.
    + by rewrite <- app_assoc.
    + intros c Hc. apply Hclean. apply elem_of_cons. by right.
Qed.

Lemma re_split_spaces_word (w cur t : str) (b : bool) :
  w ≠ [] → (∀ c, c ∈ w → isspace c = false) →
  re_split_spaces cur b (w ++ t) = re_split_spaces (cur ++ w) false t.
Proof.
  intros Hne Hclean. destruct w as [|x w]; [done|].
  cbn [app re_split_spaces].
  rewrite (Hclean x) by (apply elem_of_cons; by left).
  rewrite re_split_spaces_letters.
  - by rewrite <- app_assoc.
  - intros c Hc. apply Hclean. apply elem_of_cons. by right.
Qed.

Lemma re_split_spaces_join (ws : list str) :
  ws ≠ [] →
  (∀ w, w ∈ ws → w ≠ [] ∧ ∀ c, c ∈ w → isspace c = false) →
  ∀ b, re_split_spaces [] b (join [space] ws) = ws.
Proof.
  induction ws as [|w|w q ws _ IH] using list_ind_pairs;
    intros Hne Hclean b.
  - done.
  - destruct (Hclean w ltac:(apply elem_of_cons; by left)) as [Hw Hc].
    cbn [join]. rewrite <- (app_nil_r w) at 1.
    by rewrite re_split_spaces_word.
  - destruct (Hclean w ltac:(apply elem_of_cons; by left)) as [Hw Hc].
    rewrite join_cons, re_split_spaces_word by done.
    cbn [app re_split_spaces]. change (isspace space) with true.
    cbn iota. f_equal. apply IH; [done|].
    intros w' Hw'. apply Hclean. apply elem_of_cons. by right.
Qed.

Lemma lstrip_id (t : str) : starts_clean t → lstrip t = t.
Proof.
  intros Hst. destruct t as [|c r]; [done|].
  cbn [lstrip]. by rewrite (Hst c r eq_refl).
Qed.

Lemma rstrip_id (t : str) : ends_clean t → rstrip t = t.
Proof.
  intros Hend. unfold rstrip. rewrite lstrip_id.
  - apply reversed_involutive.
  - intros c r Heq. apply (Hend (reversed r) c).
    rewrite <- (reversed_involutive t), Heq.
    unfold reversed. by rewrite reverse_cons.
Qed.

Lemma join_last (sep : str) (ws : list str) (w : str) :
  last ws = Some w → ∃ pre, join sep ws = pre ++ w.
Proof.
  induction ws as [|p|p q ws _ IH] using list_ind_pairs; intros Hlast.
  - done.
  - injection Hlast as ->. by exists [].
  - destruct (IH Hlast) as [pre Hpre]. exists (p ++ sep ++ pre).
    rewrite join_cons, Hpre. by rewrite <- !app_assoc.
Qed.

Lemma join_clean (ws : list str) :
  ws ≠ [] →
  (∀ w, w ∈ ws → w ≠ [] ∧ ∀ c, c ∈ w → isspace c = false) →
  starts_clean (join [space] ws) ∧ ends_clean (join [space] ws).
Proof.
  intros Hne Hclean. split.
  - destruct ws as [|w ws]; [done|].
    destruct (Hclean w ltac:(apply elem_of_cons; by left)) as [Hw Hc].
    destruct w as [|x w]; [done|]. intros c r Heq.
    assert (c = x) as ->.
    { destruct ws; cbn [join app] in Heq; congruence. }
    apply Hc. apply elem_of_cons. by left.
  - destruct (last ws) as [w|] eqn:Hlast.
    2: { by apply last_None in Hlast. }
    destruct (Hclean w) as [Hw Hc].
    { apply last_Some in Hlast as [l' ->]. apply elem_of_app. right.
      apply elem_of_cons. by left. }
    destruct (join_last [space] ws w Hlast) as [pre Hpre].
    intros pre' c Heq. rewrite Hpre in Heq.
    destruct (decide (w = [])) as [|Hw']; [done|].
    apply exists_last in Hw' as (w0 & x & ->).
    rewrite app_assoc in Heq. apply app_inj_tail in Heq as [_ ->].
    apply Hc. apply elem_of_app. right. apply elem_of_cons. by left.
Qed.

(** Splitting what was joined gives the words back: for a non-empty list
    of non-empty words without whitespace, [get_words] of the words joined
    by single spaces is the list. *)
Theorem get_words_join (ws : list str) :
  ws ≠ [] →
  (∀ w, w ∈ ws → w ≠ [] ∧ ∀ c, c ∈ w → isspace c = false) →
  get_words (join [space] ws) = ws.
Proof.
  intros Hne Hclean. unfold get_words, strip.
  destruct (join_clean ws Hne Hclean) as [Hst Hend].
  rewrite (lstrip_id _ Hst), (rstrip_id _ Hend).
  by apply re_split_spaces_join.
Qed.

Lemma get_words_join_witness :
  get_words (join [space] [s "FLUSH"; s "WIPE"]) = [s "FLUSH"; s "WIPE"].
Proof.
  apply (get_words_join [s "FLUSH"; s "WIPE"]); [discriminate|].
  intros w Hw.
  repeat (apply elem_of_cons in Hw as [->|Hw];
          [split; [discriminate|];
           intros c Hc;
           repeat (apply elem_of_cons in Hc as [->|Hc]; [reflexivity|]);
           by apply elem_of_nil in Hc|]).
  by apply elem_of_nil in Hw.
Defined.

(** The docstring example of [get_words]. *)
Example get_words_doc :
  get_words (newline :: s " BATHROOM " ++ newline :: s "  FLUSH      WIPE  ")
  = [s "BATHROOM"; s "FLUSH"; s "WIPE"].
Proof. reflexivity. Qed.

(** ** Reading the file *)

Lemma occurs_tail (w : str) (x : ascii) (t : str) :
  occurs w t → occurs w (x :: t).
Proof. intros (pre & post & ->). by exists (x :: pre), post. Qed.

Lemma split_blank_step (cur : str) (x y : ascii) (t : str) :
  split_blank cur (x :: y :: t) =
  if Ascii.eqb x newline && Ascii.eqb y newline
  then cur :: split_blank [] t
  else split_blank (cur ++ [x]) (y :: t).
Proof. done. Qed.

Lemma split_blank_whole (t : str) :
  ∀ cur, ¬ occurs [newline; newline] t → split_blank cur t = [cur ++ t].
Proof.
  induction t as [|x|x y t _ IH] using list_ind_pairs; intros cur Hno.
  - simpl. by rewrite app_nil_r.
  - done.
  - rewrite split_blank_step.
    destruct (Ascii.eqb_spec x newline) as [->|Hx];
      [destruct (Ascii.eqb_spec y newline) as [->|Hy]|]; cbn [andb].
    + exfalso. apply Hno. by exists [], t.
    + rewrite IH; [by rewrite <- app_assoc|].
      intros Hocc. by apply Hno, occurs_tail.
    + rewrite IH; [by rewrite <- app_assoc|].
      intros Hocc. by apply Hno, occurs_tail.
Qed.

Lemma split_blank_first (a : str) :
  ∀ cur b,
    ¬ occurs [newline; newline] (a ++ [newline]) →
    split_blank cur (a ++ [newline; newline] ++ b) =
    (cur ++ a) :: split_blank [] b.
Proof.
  induction a as [|x a IH]; intros cur b Hno.
  - cbn [app split_blank]. rewrite Ascii.eqb_refl. cbn [andb].
    by rewrite app_nil_r.
  - assert (¬ occurs [newline; newline] (a ++ [newline])) as Hno'.
    { intros Hocc. by apply Hno, (occurs_tail _ x). }
    cbn [app].
    destruct (a ++ newline :: newline :: b) as [|y t] eqn:E;
      [by destruct a|].
    rewrite split_blank_step.
    destruct (Ascii.eqb_spec x newline) as [->|Hx];
      [destruct (Ascii.eqb_spec y newline) as [->|Hy]|]; cbn [andb].
    + exfalso. apply Hno. destruct a as [|z a].
      * by exists [], [].
      * injection E as -> _. by exists [], (a ++ [newline]).
    + rewrite <- E. change (newline :: newline :: b)
        with ([newline; newline] ++ b).
      rewrite IH by done. by rewrite <- app_assoc.
    + rewrite <- E. change (newline :: newline :: b)
        with ([newline; newline] ++ b).
      rewrite IH by done. by rewrite <- app_assoc.
Qed.

Lemma split_blank_nonempty (t cur : str) : split_blank cur t ≠ [].
Proof.
  revert cur.
  induction t as [|x|x y t _ IH] using list_ind_pairs; intros cur;
    [done|done|].
  rewrite split_blank_step. destruct (_ && _); [done|apply IH].
Qed.

(** A text without a blank line does not unpack into a grid and a word
    list: [read_file] raises [ValueError]. *)
Theorem read_file_no_gap (t : str) :
  ¬ occurs [newline; newline] t → read_file t = inl ValueError.
Proof.
  intros Hno. unfold read_file. by rewrite split_blank_whole.
Qed.

Lemma read_file_no_gap_witness :
  read_file (s "ABC" ++ newline :: s "CAB") = inl ValueError.
Proof.
  apply (read_file_no_gap (s "ABC" ++ newline :: s "CAB")).
  intros H%str_in_occurs. vm_compute in H. discriminate.
Defined.

(** A text with exactly one gap of two newlines is read as the grid
    before the gap, built by [from_str], and the words after it, split by
    [get_words]; what [from_str] raises is passed on. *)
Theorem read_file_one_gap (a b : str) :
  ¬ occurs [newline; newline] (a ++ [newline]) →
  ¬ occurs [newline; newline] b →
  read_file (a ++ [newline; newline] ++ b) =
  match from_str a with
  | inl e => inl (Raised e)
  | inr g => inr (g, get_words b)
  end.
Proof.
  intros Ha Hb. unfold read_file.
  by rewrite split_blank_first, split_blank_whole.
Qed.

Lemma read_file_one_gap_witness :
  read_file (s "AB" ++ [newline; newline] ++ s "BA  AB") =
  match from_str (s "AB") with
  | inl e => inl (Raised e)
  | inr g => inr (g, get_words (s "BA  AB"))
  end.
Proof.
  apply (read_file_one_gap (s "AB") (s "BA  AB"));
    intros H%str_in_occurs; vm_compute in H; discriminate.
Defined.

(** A text with two gaps of two newlines, and so a text with four
    newlines in a row between the grid and the words, unpacks into more
    than two pieces: [read_file] raises [ValueError]. *)
Theorem read_file_two_gaps (a b c : str) :
  ¬ occurs [newline; newline] (a ++ [newline]) →
  ¬ occurs [newline; newline] (b ++ [newline]) →
  read_file (a ++ [newline; newline] ++ b ++ [newline; newline] ++ c)
  = inl ValueError.
Proof.
  intros Ha Hb. unfold read_file.
  rewrite !split_blank_first by done. cbn [app].
  pose proof (split_blank_nonempty c []) as Hne.
  by destruct (split_blank [] c).
Qed.

Lemma read_file_two_gaps_witness :
  read_file (s "AB" ++ [newline; newline] ++ [] ++ [newline; newline]
             ++ s "BA")
  = inl ValueError.
Proof.
  apply (read_file_two_gaps (s "AB") [] (s "BA"));
    intros H%str_in_occurs; vm_compute in H; discriminate.
Defined.

(** ** The number of views *)

(** A grid built from well-formed rows of [rows] rows and [cols] columns
    has [cols] column views, [rows + cols - 1] views in each diagonal
    family, column views of [rows] letters, and an overlay of [rows] rows
    of [cols] cells. *)
Theorem views_count (txt : list str) (g : Grid) :
  well_formed txt → post_init txt = inr g →
  len (text g) = len txt ∧
  len (columns g) = width txt ∧
  Forall (λ v, len v = len txt) (columns g) ∧
  len (diag_up_right g) = len txt + width txt - 1 ∧
  len (diag_down_right g) = len txt + width txt - 1 ∧
  overlay_shape (len txt) (width txt) (highlighted g).
Proof.
  intros Hwf Hg. pose proof (post_init_valid txt g Hwf Hg) as (_ & _ & Hs).
  rewrite (text_view txt g Hwf Hg) in *.
  split; [done|]. split; [by apply columns_count|].
  split; [|split; [by apply diag_up_right_count|
                   split; [by apply diag_down_right_count|done]]].
  apply Forall_lookup. intros k v Hk.
  apply (columns_view txt g Hwf Hg (Z.of_nat k)). by rewrite at_index_nat.
Qed.

Lemma views_count_witness :
  len (text abc_grid) = 3 ∧
  len (columns abc_grid) = 3 ∧
  Forall (λ v, len v = 3) (columns abc_grid) ∧
  len (diag_up_right abc_grid) = 3 + 3 - 1 ∧
  len (diag_down_right abc_grid) = 3 + 3 - 1 ∧
  overlay_shape 3 3 (highlighted abc_grid).
Proof. apply (views_count abc abc_grid abc_well_formed abc_built). Defined.
